(** * QuizMaster: the quiz session engine, the question source, the
      high-score ledger and the statistics aggregator

    A shallow embedding of the logic of
      - [hooks/useQuiz.js]          (question loading, answering, scoring),
      - [utils/api.js]              (remote fetch, retry, rate limit, helpers),
      - [hooks/useLocalStorage.js]  (high scores and statistics),
      - [pages/Quiz.jsx]            (which screen a hook state is shown as),
    followed by the properties of these functions.

    Conventions.  React state is a record that every action takes and
    returns; a [setX] call is a field update of the returned record.  A
    callback reads the state of the render that created it: the functions
    of [UseQuiz] are direct calls, made from the render of the state they
    act on, and those of [Session] whose name ends in [_from] take the
    state of their render as a separate argument.  The
    clock ([new Date()], [Date.now()]) and the random source
    ([Math.random()]) are explicit arguments.  JavaScript numbers that can
    be [NaN] (percentages) are values of [JS.number]; counters, indices,
    identifiers and millisecond timestamps are integers of [Z]. *)

From Stdlib Require Import ZArith QArith Qround String.
From stdpp Require Import base option list sorting gmap strings pretty.

Local Open Scope string_scope.
Local Open Scope list_scope.
Local Open Scope Z_scope.

(** ** JavaScript values *)

Module JS.

(** A JavaScript number, up to rounding error: a finite value is an exact
    rational (binary64 rounding of intermediate quotients is not
    modelled), and the non-finite values are kept apart. *)
Inductive number : Type :=
  | Fin (q : Q)
  | NaN
  | PosInfinity
  | NegInfinity.

Definition Int (z : Z) : number := Fin (inject_Z z).

(** [a / b] *)
Definition div (a b : number) : number :=
  match a, b with
  | Fin x, Fin y =>
      if Qeq_bool y 0 then
        (if Qeq_bool x 0 then NaN
         else if Qle_bool 0 x then PosInfinity else NegInfinity)
      else Fin (Qred (x / y))
  | Fin x, (PosInfinity | NegInfinity) => Fin 0
  | PosInfinity, Fin y => if Qle_bool 0 y then PosInfinity else NegInfinity
  | NegInfinity, Fin y => if Qle_bool 0 y then NegInfinity else PosInfinity
  | _, _ => NaN
  end.

(** [a * b] *)
Definition mul (a b : number) : number :=
  match a, b with
  | Fin x, Fin y => Fin (Qred (x * y))
  | Fin x, PosInfinity | PosInfinity, Fin x =>
      if Qeq_bool x 0 then NaN
      else if Qle_bool 0 x then PosInfinity else NegInfinity
  | Fin x, NegInfinity | NegInfinity, Fin x =>
      if Qeq_bool x 0 then NaN
      else if Qle_bool 0 x then NegInfinity else PosInfinity
  | PosInfinity, PosInfinity | NegInfinity, NegInfinity => PosInfinity
  | PosInfinity, NegInfinity | NegInfinity, PosInfinity => NegInfinity
  | _, _ => NaN
  end.

(** [Math.round(a)]: the nearest integer, a tie going up. *)
Definition Math_round (a : number) : number :=
  match a with
  | Fin x => Int (Qfloor (x + (1 # 2)))
  | other => other
  end.

(** [a >= b] *)
Definition ge (a b : number) : bool :=
  match a, b with
  | Fin x, Fin y => Qle_bool y x
  | NaN, _ | _, NaN => false
  | PosInfinity, _ => true
  | _, NegInfinity => true
  | _, _ => false
  end.

(** [a === b] on numbers: [NaN] differs from everything, itself included. *)
Definition number_eq (a b : number) : bool :=
  match a, b with
  | Fin x, Fin y => Qeq_bool x y
  | PosInfinity, PosInfinity | NegInfinity, NegInfinity => true
  | _, _ => false
  end.

Definition is_NaN (a : number) : bool :=
  match a with NaN => true | _ => false end.

(** The values that an answer or a [correctAnswer] field can hold. *)
Inductive value : Type :=
  | Undefined
  | Number (n : number)
  | String (s : string).

(** [a === b]: no conversion between types. *)
Definition strict_eq (a b : value) : bool :=
  match a, b with
  | Undefined, Undefined => true
  | Number x, Number y => number_eq x y
  | String s, String t => bool_decide (s = t)
  | _, _ => false
  end.

(** An option index as the user interface passes it. *)
Definition index (i : nat) : value := Number (Int (Z.of_nat i)).

(** [s.includes(sub)] *)
Definition includes (s sub : string) : bool :=
  match String.index 0 sub s with
  | Some _ => true
  | None => false
  end.

(** [array.slice(0, e)]: a negative end counts from the end of the array. *)
Definition slice0 {A} (l : list A) (e : Z) : list A :=
  if e <? 0
  then take (Z.to_nat (Z.max (Z.of_nat (length l) + e) 0)) l
  else take (Z.to_nat (Z.min e (Z.of_nat (length l)))) l.

(** [array.sort(compare)].  The sort is stable, and for a comparator that
    is a consistent ordering its result is the one stable sorted
    arrangement of the array, whatever the engine's algorithm; insertion
    from the right computes it.  [compare a b <= 0] keeps [a] before [b]. *)
Fixpoint insert_sorted {A} (compare : A → A → Z) (x : A) (l : list A)
  : list A :=
  match l with
  | [] => [x]
  | y :: l' =>
      if compare x y <=? 0 then x :: y :: l'
      else y :: insert_sorted compare x l'
  end.

Fixpoint sort {A} (compare : A → A → Z) (l : list A) : list A :=
  match l with
  | [] => []
  | x :: l' => insert_sorted compare x (sort compare l')
  end.

End JS.

(** ** The random source and the Fisher-Yates shuffle *)

(** [Math.random()] is a stream of draws together with the number of draws
    already made.  [Math.floor(Math.random() * n)] is some integer of
    [0 .. n-1]: the current draw reduced modulo [n]. *)
Record random : Type := Random { draw : nat → nat; drawn : nat }.

Definition random_below (n : nat) (g : random) : nat * random :=
  ((draw g (drawn g) mod n)%nat, Random (draw g) (S (drawn g))).

(** [[a[i], a[j]] = [a[j], a[i]]] *)
Definition swap {A} (a : list A) (i j : nat) : list A :=
  match a !! i, a !! j with
  | Some x, Some y => <[i:=y]> (<[j:=x]> a)
  | _, _ => a
  end.

(** The loop [for (let i = ...; i > 0; i--)] of [shuffleArray], entered
    with the loop variable at [i]. *)
Fixpoint shuffle_from {A} (i : nat) (shuffled : list A) (g : random)
  : list A * random :=
  match i with
  | O => (shuffled, g)
  | S i' =>
      let '(j, g') := random_below (i + 1) g in
      shuffle_from i' (swap shuffled i j) g'
  end.

(** [shuffleArray] of [utils/api.js]; [shuffleQuestions] of
    [hooks/useQuiz.js] has the same body. *)
Definition shuffleArray {A} (array : list A) (g : random) : list A * random :=
  shuffle_from (length array - 1) array g.

Definition shuffleQuestions {A} (array : list A) (g : random)
  : list A * random :=
  shuffle_from (length array - 1) array g.

(** ** Questions *)

Module Question.

(** A question as the hook holds it.  In the bundled data set
    [correctAnswer] is the index of the right option, and [id] is a
    number. *)
Record t : Type := Make {
  id : Z;
  category : string;
  difficulty : string;
  question : string;
  options : list string;
  correctAnswer : JS.value;
  explanation : string
}.

(** [{...q, id: i}] *)
Definition with_id (q : t) (i : Z) : t :=
  Make i (category q) (difficulty q) (question q) (options q)
       (correctAnswer q) (explanation q).

(** [{...undefined, id: i}]: an object with no other field. *)
Definition only_id (i : Z) : t := Make i "" "" "" [] JS.Undefined "".

(** Two questions with the same content, whatever their ids. *)
Definition same_content (q1 q2 : t) : Prop := with_id q1 0 = with_id q2 0.

End Question.

Abbreviation question := Question.t.

(** What an asynchronous call ends with: a value, or a thrown [Error]
    (its [message]), or the thrown value [undefined]. *)
Inductive completion (A : Type) : Type :=
  | Return (a : A)
  | Throw (message : string)
  | ThrowUndefined.
Arguments Return {A} a.
Arguments Throw {A} message.
Arguments ThrowUndefined {A}.

(** ** High-score entries *)

Module Score.

(** The [scoreData] object that the quiz page builds, with the two fields
    that [addScore] adds ([None] where [saveScore] stores the object as it
    was given).  A stored percentage is an integer. *)
Record t : Type := Make {
  score : Z;
  total : Z;
  percentage : Z;
  difficulty : string;
  timeTaken : Z;
  category : string;
  id : option Z;
  timestamp : option string
}.

(** [(a, b) => b.percentage - a.percentage] *)
Definition by_percentage (a b : t) : Z := percentage b - percentage a.

End Score.

(** ** [utils/api.js] *)

Module Api.

(** One entry of the provider's [results]. *)
Record api_question : Type := ApiQuestion {
  api_category : string;
  api_difficulty : string;
  api_question_text : string;
  correct_answer : string;
  incorrect_answers : list string
}.

(** What one outbound request comes back with. *)
Inductive response : Type :=
  | Rejected (message : string)
      (* [fetch] or [response.json()] rejects with this message *)
  | Status (status : Z)
      (* [response.ok] is false *)
  | Body (response_code : Z) (results : list api_question).

Definition rate_limit_message : string :=
  "Rate limit exceeded. Please wait a few seconds and try again, or switch to offline mode.".
Definition no_results_message : string :=
  "No questions found for the selected criteria. Try different settings or use offline mode.".
Definition invalid_parameter_message : string :=
  "Invalid quiz settings. Please check your configuration.".
Definition network_message : string :=
  "Network error. Please check your internet connection or try offline mode.".

(** The messages thrown inside the [try] block of
    [fetchQuestionsFromAPI]: for a response that is not [ok], and for a
    [response_code] ([None] for the success code 0). *)
Definition status_error (status : Z) : string :=
  if status =? 429 then "RATE_LIMIT_EXCEEDED"
  else "HTTP error! status: " +:+ pretty status.

Definition code_error (response_code : Z) : option string :=
  if response_code =? 0 then None
  else if response_code =? 1 then Some "NO_RESULTS"
  else if response_code =? 2 then Some "INVALID_PARAMETER"
  else if response_code =? 3 then Some "TOKEN_NOT_FOUND"
  else if response_code =? 4 then Some "TOKEN_EMPTY"
  else if response_code =? 5 then Some "RATE_LIMIT"
  else Some ("API_ERROR_" +:+ pretty response_code).

(** The [catch] block of [fetchQuestionsFromAPI]: the message that is
    thrown on to the caller. *)
Definition rethrown (message : string) : string :=
  if bool_decide (message = "RATE_LIMIT_EXCEEDED")
     || bool_decide (message = "RATE_LIMIT")
  then rate_limit_message
  else if bool_decide (message = "NO_RESULTS") then no_results_message
  else if bool_decide (message = "INVALID_PARAMETER")
  then invalid_parameter_message
  else if JS.includes message "Failed to fetch"
          || JS.includes message "NetworkError"
  then network_message
  else message.

Section Fetch.

(** [decodeHTMLEntities] goes through the DOM; it is a parameter. *)
Variable decodeHTMLEntities : string → string.

(** [data.results.map((question, index) => ...)], from position [index]
    on; each question's options are shuffled in turn. *)
Fixpoint formattedQuestions (index : nat) (results : list api_question)
    (g : random) : list question * random :=
  match results with
  | [] => ([], g)
  | q :: rest =>
      let '(opts, g1) :=
        shuffleArray (map decodeHTMLEntities (incorrect_answers q)
                        ++ [decodeHTMLEntities (correct_answer q)]) g in
      let '(qs, g2) := formattedQuestions (S index) rest g1 in
      (Question.Make (Z.of_nat index + 1) (api_category q) (api_difficulty q)
                     (decodeHTMLEntities (api_question_text q)) opts
                     (JS.String (correct_answer q))
                     ("The correct answer is: "
                        +:+ decodeHTMLEntities (correct_answer q)) :: qs,
       g2)
  end.

(** [fetchQuestionsFromAPI], given what the request comes back with.  The
    request URL is not modelled: the response is an input. *)
Definition fetchQuestionsFromAPI (r : response) (g : random)
  : completion (list question) * random :=
  match r with
  | Rejected message => (Throw (rethrown message), g)
  | Status status => (Throw (rethrown (status_error status)), g)
  | Body response_code results =>
      match code_error response_code with
      | Some message => (Throw (rethrown message), g)
      | None =>
          let '(qs, g1) := formattedQuestions 0 results g in
          let '(shuffled, g2) := shuffleArray qs g1 in
          (Return shuffled, g2)
      end
  end.

(** What [fetchQuestionsWithRetry] does, in order. *)
Inductive action : Type :=
  | Delay (ms : Z)          (* [await delay(ms)] *)
  | Attempt (attempt : nat) (* a call of [fetchQuestionsFromAPI] *).

(** The test of the [catch] block of [fetchQuestionsWithRetry]. *)
Definition is_rate_limit (message : string) : bool :=
  JS.includes message "Rate limit" || JS.includes message "429".

(** The loop [for (attempt = ...; attempt <= maxRetries; attempt++)],
    entered at [attempt] with [remaining] iterations to go.  The request
    of attempt [k] comes back with [responses k]. *)
Fixpoint retry_loop (responses : nat → response) (maxRetries : nat)
    (remaining attempt : nat) (lastError : option string)
    (g : random) : list action * completion (list question) * random :=
  match remaining with
  | O =>
      (* [throw lastError] *)
      ([], match lastError with
           | Some message => Throw message
           | None => ThrowUndefined
           end, g)
  | S remaining' =>
      let before :=
        if (1 <? attempt)%nat then [Delay (Z.of_nat attempt * 3000)] else [] in
      match fetchQuestionsFromAPI (responses attempt) g with
      | (Return questions, g') =>
          (before ++ [Attempt attempt], Return questions, g')
      | (Throw message, g') =>
          if is_rate_limit message then
            let after :=
              if (attempt <? maxRetries)%nat then [Delay 10000] else [] in
            let '(log, c, g'') :=
              retry_loop responses maxRetries remaining' (S attempt)
                         (Some message) g' in
            (before ++ [Attempt attempt] ++ after ++ log, c, g'')
          else (before ++ [Attempt attempt], Throw message, g')
      | (ThrowUndefined, g') =>
          (before ++ [Attempt attempt], ThrowUndefined, g')
      end
  end.

(** [fetchQuestionsWithRetry]: [lastError] starts as [undefined] and the
    loop runs for [attempt = 1 .. maxRetries]. *)
Definition fetchQuestionsWithRetry (responses : nat → response)
    (maxRetries : nat) (g : random)
  : list action * completion (list question) * random :=
  retry_loop responses maxRetries maxRetries 1%nat None g.

End Fetch.

(** *** The rate limiter *)

Definition MIN_REQUEST_INTERVAL : Z := 5000.

(** The module-level state of the rate limiter, with the clock and the
    calls that are suspended in [await delay(waitTime)]. *)
Record network : Type := Network {
  clock : Z;             (* [Date.now()] *)
  lastRequestTime : Z;
  sleeping : list Z;     (* when each suspended call wakes up, in the
                            order in which the timers were set *)
  sent : list Z          (* when each outbound request left, oldest first *)
}.

(** The end of [rateLimitedFetch]:
    [lastRequestTime = Date.now(); return fetch(url)]. *)
Definition send (n : network) : network :=
  Network (clock n) (clock n) (sleeping n) (sent n ++ [clock n]).

(** A call of [rateLimitedFetch], up to the point where it either has
    sent its request or is suspended in [await delay(waitTime)]. *)
Definition rateLimitedFetch (n : network) : network :=
  let now := clock n in
  let timeSinceLastRequest := now - lastRequestTime n in
  if timeSinceLastRequest <? MIN_REQUEST_INTERVAL then
    let waitTime := MIN_REQUEST_INTERVAL - timeSinceLastRequest in
    Network (clock n) (lastRequestTime n) (sleeping n ++ [now + waitTime])
            (sent n)
  else send n.

(** The earliest wake-up time among the suspended calls. *)
Fixpoint earliest (timers : list Z) : option Z :=
  match timers with
  | [] => None
  | t :: rest =>
      match earliest rest with
      | Some u => Some (if t <=? u then t else u)
      | None => Some t
      end
  end.

(** Removes the first timer set for time [t]. *)
Fixpoint cancel (t : Z) (timers : list Z) : list Z :=
  match timers with
  | [] => []
  | u :: rest => if u =? t then rest else u :: cancel t rest
  end.

(** The timers that are due by [target] fire in the order of their times,
    each one at its time, and the call resumes after its [await]. *)
Fixpoint wake (pending : nat) (target : Z) (n : network) : network :=
  match pending with
  | O => n
  | S pending' =>
      match earliest (sleeping n) with
      | Some due =>
          if due <=? target then
            wake pending' target
                 (send (Network (Z.max (clock n) due) (lastRequestTime n)
                                (cancel due (sleeping n)) (sent n)))
          else n
      | None => n
      end
  end.

(** [ms] milliseconds pass. *)
Definition elapse (ms : N) (n : network) : network :=
  let target := clock n + Z.of_N ms in
  let n' := wake (length (sleeping n)) target n in
  Network target (lastRequestTime n') (sleeping n') (sent n').

(** What happens to the rate limiter: a caller invokes
    [rateLimitedFetch], or time passes. *)
Inductive step : Type :=
  | Invoke
  | Elapse (ms : N).

Definition run_step (e : step) (n : network) : network :=
  match e with
  | Invoke => rateLimitedFetch n
  | Elapse ms => elapse ms n
  end.

Definition run (schedule : list step) (n : network) : network :=
  foldl (λ n e, run_step e n) n schedule.

(** The schedules in which no call is made while another one is still
    suspended. *)
Fixpoint one_at_a_time (schedule : list step) (n : network) : Prop :=
  match schedule with
  | [] => True
  | e :: rest =>
      match e with
      | Invoke => sleeping n = []
      | Elapse _ => True
      end ∧ one_at_a_time rest (run_step e n)
  end.

(** Every request leaves at least [interval] after the one before it. *)
Fixpoint spaced (interval : Z) (times : list Z) : Prop :=
  match times with
  | [] => True
  | t :: rest =>
      match rest with
      | [] => True
      | u :: _ => t + interval ≤ u
      end ∧ spaced interval rest
  end.

(** *** Helpers *)

(** [calculatePercentage] *)
Definition calculatePercentage (correct total : JS.number) : JS.number :=
  if JS.number_eq total (JS.Int 0) then JS.Int 0
  else JS.Math_round (JS.mul (JS.div correct total) (JS.Int 100)).

(** [saveScore]: [stored] is what [getHighScores()] reads from local
    storage, and the result is what [setItem] writes back. *)
Definition saveScore (scoreData : Score.t) (stored : list Score.t)
  : list Score.t :=
  let existingScores := stored in
  let newScores := JS.sort Score.by_percentage (existingScores ++ [scoreData]) in
  let topScores := JS.slice0 newScores 10 in
  topScores.

End Api.

(** ** [hooks/useQuiz.js] *)

Module Result.

(** One element of [results]. *)
Record outcome : Type := Outcome {
  question : Question.t;
  userAnswer : JS.value;
  isCorrect : bool;
  correctAnswer : JS.value
}.

(** What [finishQuiz] returns and what [quizResults] holds. *)
Record t : Type := Make {
  score : Z;
  total : Z;
  percentage : JS.number;
  results : list outcome;
  timeTaken : Z
}.

End Result.

Module UseQuiz.

(** The options of the hook. *)
Record options : Type := Options {
  useAPI : bool;
  amount : Z;
  category : option Z;
  difficulty : option string;
  timeLimit : Z
}.

(** The state of the hook.  [selectedAnswers] is the object that maps a
    question id to the chosen option. *)
Record state : Type := State {
  questions : list question;
  currentQuestionIndex : Z;
  selectedAnswers : gmap Z JS.value;
  isLoading : bool;
  error : option string;
  quizCompleted : bool;
  score : Z;
  timeRemaining : Z;
  timerActive : bool;
  startTime : option Z;
  endTime : option Z
}.

(** The state of a freshly mounted hook. *)
Definition initial (o : options) : state :=
  State [] 0 ∅ false None false 0 (timeLimit o) false None None.

(** [selectedAnswers[id]] *)
Definition answer_of (answers : gmap Z JS.value) (id : Z) : JS.value :=
  match answers !! id with
  | Some chosen => chosen
  | None => JS.Undefined
  end.

(** *** Loading *)

(** The test of the [filter] callback: is [q] dropped? *)
Definition dropped (difficulty : option string) (q : question) : bool :=
  match difficulty with
  | Some d =>
      negb (bool_decide (d = "")) && negb (bool_decide (Question.difficulty q = d))
  | None => false
  end.

(** [questionsData.questions.filter(...).map(...)] *)
Definition filteredQuestions (difficulty : option string)
    (data : list question) : list question :=
  imap (λ index q,
          Question.with_id q (if Question.id q =? 0 then Z.of_nat index + 1
                              else Question.id q))
       (filter (λ q, dropped difficulty q = false) data).

(** [questionsPool.pop()] *)
Definition pop {A} (l : list A) : option A * list A :=
  (last l, removelast l).

(** The loop [while (questionData.length < amount)], run for at most
    [fuel] iterations. *)
Fixpoint refill (fuel : nat) (filtered : list question) (amount : Z)
    (questionData questionsPool : list question) (g : random)
  : list question * random :=
  match fuel with
  | O => (questionData, g)
  | S fuel' =>
      if Z.of_nat (length questionData) <? amount then
        let '(pool, g1) :=
          match questionsPool with
          | [] => shuffleQuestions filtered g
          | _ => (questionsPool, g)
          end in
        let '(popped, pool') := pop pool in
        let i := Z.of_nat (length questionData) + 1 in
        let q := match popped with
                 | Some q => Question.with_id q i
                 | None => Question.only_id i
                 end in
        refill fuel' filtered amount (questionData ++ [q]) pool' g1
      else (questionData, g)
  end.

(** The [else] branch of [loadQuestions]: the questions from the bundled
    data.  Every iteration of the loop adds a question, so [amount]
    iterations are enough. *)
Definition localQuestions (difficulty : option string) (amount : Z)
    (data : list question) (g : random) : list question * random :=
  let filtered := filteredQuestions difficulty data in
  let '(shuffledQuestions, g1) := shuffleQuestions filtered g in
  if amount <=? Z.of_nat (length shuffledQuestions) then
    (JS.slice0 shuffledQuestions amount, g1)
  else if (0 <? length shuffledQuestions)%nat then
    refill (Z.to_nat amount) filtered amount [] shuffledQuestions g1
  else ([], g1).

Definition offline_notice : string :=
  "Using offline questions due to connection issues".

(** The state after the [try] block succeeded. *)
Definition loaded (o : options) (questionData : list question) (st : state)
  : state :=
  State questionData 0 ∅ false None false 0 (timeLimit o) false None None.

(** The state after the [catch] block, for an error with this message. *)
Definition failed (o : options) (data : list question) (message : string)
    (g : random) (st : state) : state * random :=
  let shown := if bool_decide (message = "") then "Failed to load questions"
               else message in
  if useAPI o then
    let '(shuffledQuestions, g1) := shuffleQuestions data g in
    let fallbackQuestions := JS.slice0 shuffledQuestions (amount o) in
    (State fallbackQuestions (currentQuestionIndex st) (selectedAnswers st)
           false (Some offline_notice) (quizCompleted st) (score st)
           (timeRemaining st) (timerActive st) (startTime st) (endTime st),
     g1)
  else
    (State (questions st) (currentQuestionIndex st) (selectedAnswers st)
           false (Some shown) (quizCompleted st) (score st)
           (timeRemaining st) (timerActive st) (startTime st) (endTime st),
     g).

Section Load.

Variable decodeHTMLEntities : string → string.

(** [loadQuestions], from its call to the end of its [finally] block.
    [data] is [questionsData.questions] and [responses] is what the
    provider answers to the successive requests.  The hook calls
    [fetchQuestionsWithRetry] with three arguments, so [maxRetries] is 2. *)
Definition loadQuestions (o : options) (data : list question)
    (responses : nat → Api.response) (g : random) (st : state)
  : state * random :=
  let '(fetched, g1) :=
    if useAPI o then
      let '(_, c, g1) :=
        Api.fetchQuestionsWithRetry decodeHTMLEntities responses 2 g in
      (c, g1)
    else
      let '(questionData, g1) := localQuestions (difficulty o) (amount o) data g in
      (Return questionData, g1) in
  match fetched with
  | Return questionData =>
      if (length questionData =? 0)%nat
      then failed o data "No questions found" g1 st
      else (loaded o questionData st, g1)
  | Throw message => failed o data message g1 st
  | ThrowUndefined =>
      (* [err.message] throws inside the [catch] block; only
         [setError(null)] and the [finally] block took effect *)
      (State (questions st) (currentQuestionIndex st) (selectedAnswers st)
             false None (quizCompleted st) (score st) (timeRemaining st)
             (timerActive st) (startTime st) (endTime st),
       g1)
  end.

End Load.

(** *** Answering and moving *)

(** [startQuiz], when the clock reads [now]. *)
Definition startQuiz (now : Z) (st : state) : state :=
  State (questions st) (currentQuestionIndex st) (selectedAnswers st)
        (isLoading st) (error st) (quizCompleted st) (score st)
        (timeRemaining st) true (Some now) (endTime st).

(** [selectAnswer].  Where there is no current question the property
    access throws and the state stays as it is. *)
Definition selectAnswer (answerIndex : JS.value) (st : state) : state :=
  if quizCompleted st then st
  else if currentQuestionIndex st <? 0 then st
  else
    match questions st !! Z.to_nat (currentQuestionIndex st) with
    | Some q =>
        let questionId := Question.id q in
        State (questions st) (currentQuestionIndex st)
              (<[questionId := answerIndex]> (selectedAnswers st))
              (isLoading st) (error st) (quizCompleted st) (score st)
              (timeRemaining st) (timerActive st) (startTime st) (endTime st)
    | None => st
    end.

(** *** Scoring *)

(** The callback of [questions.map] in [finishQuiz]. *)
Definition outcome_of (answers : gmap Z JS.value) (q : question)
  : Result.outcome :=
  let userAnswer := answer_of answers (Question.id q) in
  let isCorrect := JS.strict_eq userAnswer (Question.correctAnswer q) in
  Result.Outcome q userAnswer isCorrect (Question.correctAnswer q).

(** The value of [correctAnswers] after the [map]. *)
Definition count_correct (results : list Result.outcome) : Z :=
  Z.of_nat (length (filter (λ r, Result.isCorrect r = true) results)).

(** [Math.round((n / questions.length) * 100)] *)
Definition percent (n : Z) (len : nat) : JS.number :=
  JS.Math_round
    (JS.mul (JS.div (JS.Int n) (JS.Int (Z.of_nat len))) (JS.Int 100)).

(** [finishQuiz].  The clock is read twice: [ended] by
    [setEndTime(new Date())] and [returned] by [new Date() - startTime]. *)
Definition finishQuiz (ended returned : Z) (st : state) : Result.t * state :=
  let results := map (outcome_of (selectedAnswers st)) (questions st) in
  let correctAnswers := count_correct results in
  (Result.Make correctAnswers (Z.of_nat (length (questions st)))
               (percent correctAnswers (length (questions st)))
               results
               (match startTime st with
                | Some started => returned - started
                | None => 0
                end),
   State (questions st) (currentQuestionIndex st) (selectedAnswers st)
         (isLoading st) (error st) true correctAnswers (timeRemaining st)
         false (startTime st) (Some ended)).

(** [nextQuestion]; [skipQuestion] calls it. *)
Definition nextQuestion (o : options) (ended returned : Z) (st : state)
  : state :=
  if currentQuestionIndex st <? Z.of_nat (length (questions st)) - 1 then
    State (questions st) (currentQuestionIndex st + 1) (selectedAnswers st)
          (isLoading st) (error st) (quizCompleted st) (score st)
          (timeLimit o) (timerActive st) (startTime st) (endTime st)
  else snd (finishQuiz ended returned st).

Definition skipQuestion := nextQuestion.

(** [previousQuestion] *)
Definition previousQuestion (o : options) (st : state) : state :=
  if 0 <? currentQuestionIndex st then
    State (questions st) (currentQuestionIndex st - 1) (selectedAnswers st)
          (isLoading st) (error st) (quizCompleted st) (score st)
          (timeLimit o) (timerActive st) (startTime st) (endTime st)
  else st.

(** The computed value [quizResults]. *)
Definition quizResults (st : state) : option Result.t :=
  if quizCompleted st then
    Some (Result.Make (score st) (Z.of_nat (length (questions st)))
            (percent (score st) (length (questions st)))
            (map (outcome_of (selectedAnswers st)) (questions st))
            (match startTime st, endTime st with
             | Some started, Some ended => ended - started
             | _, _ => 0
             end))
  else None.

End UseQuiz.

(** ** [pages/Quiz.jsx]: what the page shows for a state of the hook *)

Module QuizPage.

Inductive screen : Type :=
  | LoadingScreen
  | ErrorScreen (message : string)
  | StartScreen
  | CompletedScreen
  | QuestionScreen.

(** The message for which [if (error)] is taken: [error] is neither
    [null] nor the empty string. *)
Definition truthy (error : option string) : option string :=
  match error with
  | Some message => if bool_decide (message = "") then None else Some message
  | None => None
  end.

(** The chain of early [return]s of the component; [quizStarted] is the
    page's own flag.  [quizResults] is not [null] exactly when
    [quizCompleted] holds. *)
Definition render (quizStarted : bool) (st : UseQuiz.state) : screen :=
  if UseQuiz.isLoading st then LoadingScreen
  else
    match truthy (UseQuiz.error st) with
    | Some message => ErrorScreen message
    | None =>
        if negb quizStarted && (0 <? length (UseQuiz.questions st))%nat
        then StartScreen
        else if UseQuiz.quizCompleted st then CompletedScreen
        else QuestionScreen
    end.

End QuizPage.

(** ** [hooks/useLocalStorage.js] *)

Module Storage.

(** [{...scoreData, id: Date.now(), timestamp: new Date().toISOString()}] *)
Definition newScore (now : Z) (iso : string) (scoreData : Score.t) : Score.t :=
  Score.Make (Score.score scoreData) (Score.total scoreData)
             (Score.percentage scoreData) (Score.difficulty scoreData)
             (Score.timeTaken scoreData) (Score.category scoreData)
             (Some now) (Some iso).

(** [addScore]: [now] is [Date.now()] and [iso] is
    [new Date().toISOString()]; [prevScores] is the stored list. *)
Definition addScore (now : Z) (iso : string) (scoreData : Score.t)
    (prevScores : list Score.t) : list Score.t :=
  let updatedScores :=
    JS.slice0 (JS.sort Score.by_percentage
                       (prevScores ++ [newScore now iso scoreData])) 10 in
  updatedScores.

(** A record operation: the clock readings and the score data. *)
Definition record : Type := Z * string * Score.t.

(** The entry that a record operation stores. *)
Definition recorded (r : record) : Score.t :=
  let '(now, iso, scoreData) := r in newScore now iso scoreData.

(** The stored list after a sequence of record operations, [highScores]
    being read back between two of them. *)
Definition addScores (records : list record) (highScores : list Score.t)
  : list Score.t :=
  foldl (λ scores r, let '(now, iso, scoreData) := r in
                     addScore now iso scoreData scores)
        highScores records.

(** [clearScores] *)
Definition clearScores (highScores : list Score.t) : list Score.t := [].

(** [getBestScore] *)
Definition getBestScore (highScores : list Score.t) : option Score.t :=
  if (0 <? length highScores)%nat then highScores !! 0%nat else None.

(** The statistics object. *)
Record stats : Type := Stats {
  totalQuizzes : Z;
  totalQuestions : Z;
  totalCorrect : Z;
  averageScore : JS.number;
  bestStreak : Z;
  currentStreak : Z;
  favoriteCategory : option string;
  timeSpent : Z;
  lastPlayed : option string
}.

Definition zero_stats : stats :=
  Stats 0 0 0 (JS.Int 0) 0 0 None 0 None.

(** [updateStats]; [iso] is [new Date().toISOString()].  On an integer,
    [quizResult.timeTaken || 0] is [quizResult.timeTaken]. *)
Definition updateStats (iso : string) (quizResult : Result.t)
    (prevStats : stats) : stats :=
  let newTotalQuizzes := totalQuizzes prevStats + 1 in
  let newTotalQuestions := totalQuestions prevStats + Result.total quizResult in
  let newTotalCorrect := totalCorrect prevStats + Result.score quizResult in
  let newAverageScore :=
    JS.Math_round
      (JS.mul (JS.div (JS.Int newTotalCorrect) (JS.Int newTotalQuestions))
              (JS.Int 100)) in
  let newCurrentStreak :=
    if JS.ge (Result.percentage quizResult) (JS.Int 70)
    then currentStreak prevStats + 1 else 0 in
  let newBestStreak := Z.max (bestStreak prevStats) newCurrentStreak in
  let newTimeSpent := timeSpent prevStats + Result.timeTaken quizResult in
  Stats newTotalQuizzes newTotalQuestions newTotalCorrect newAverageScore
        newBestStreak newCurrentStreak (favoriteCategory prevStats)
        newTimeSpent (Some iso).

(** [resetStats] *)
Definition resetStats (s : stats) : stats := zero_stats.

End Storage.

(** A one-question answer of the provider, and the session played on it:
    the question is loaded, the quiz is started and the user picks the
    option that shows the provider's correct answer. *)
Module RemoteSession.

Definition paris : Api.api_question :=
  Api.ApiQuestion "Geography" "easy" "What is the capital of France?"
                  "Paris" ["London"; "Rome"; "Berlin"].

Definition responses (attempt : nat) : Api.response := Api.Body 0 [paris].

Definition options : UseQuiz.options :=
  UseQuiz.Options true 1 None None 30.

Definition g0 : random := Random (λ _, 0%nat) 0.

Definition loaded : UseQuiz.state :=
  (UseQuiz.loadQuestions (λ s, s) options [] responses g0
                         (UseQuiz.initial options)).1.

(** The index of the option that reads [Paris]. *)
Definition right_option : nat := 2.

Definition answered : UseQuiz.state :=
  UseQuiz.selectAnswer (JS.index right_option) (UseQuiz.startQuiz 1000 loaded).

End RemoteSession.

(** A session on two questions of the bundled data: the first one is
    answered right, the second one is skipped; the quiz was started when
    the clock read 1000. *)
Module LocalSession.

Definition data : list question :=
  [ Question.Make 1 "Science" "easy" "What is H2O?"
                  ["Water"; "Salt"; "Gold"; "Air"] (JS.index 0) "Water.";
    Question.Make 2 "History" "easy" "Who was the first US president?"
                  ["Lincoln"; "Washington"; "Adams"; "Jefferson"]
                  (JS.index 1) "Washington." ].

Definition options : UseQuiz.options :=
  UseQuiz.Options false 2 None None 30.

Definition answered : UseQuiz.state :=
  UseQuiz.State data 1 {[ 1 := JS.index 0 ]} false None false 0 30 true
                (Some 1000) None.

End LocalSession.

(** ** Predicates of the statements *)

(** [l] is in descending order of [key]. *)
Definition descending {A} (key : A → Z) (l : list A) : Prop :=
  StronglySorted (λ a b, key b ≤ key a) l.

(** [q] is a question of [filtered], under whatever id. *)
Definition from_pool (filtered : list question) (q : question) : Prop :=
  ∃ q', q' ∈ filtered ∧ Question.same_content q q'.

(** What [fetchQuestionsWithRetry] does when it makes [count] attempts
    from [attempt] on: before every attempt but the first it waits
    [attempt * 3000] ms, and after every attempt that is followed by
    another one it waits 10000 ms. *)
Fixpoint retry_log (count attempt : nat) : list Api.action :=
  match count with
  | O => []
  | S count' =>
      (if (1 <? attempt)%nat then [Api.Delay (Z.of_nat attempt * 3000)] else [])
      ++ [Api.Attempt attempt]
      ++ (if (0 <? count')%nat then [Api.Delay 10000] else [])
      ++ retry_log count' (S attempt)
  end.

(** The request of attempt [i] fails and the failure passes the
    rate-limit test of [fetchQuestionsWithRetry]. *)
Definition rate_limited_at (decode : string → string)
    (responses : nat → Api.response) (g : random) (i : nat) : Prop :=
  ∃ message,
    Api.fetchQuestionsFromAPI decode (responses i) g = (Throw message, g)
    ∧ Api.is_rate_limit message = true.

(** The outcome of an attempt after which [fetchQuestionsWithRetry] makes
    no other attempt: a success, an error that does not pass the
    rate-limit test, or any outcome of the last attempt allowed. *)
Definition ends_run (c : completion (list question)) (last_allowed : Prop)
  : Prop :=
  match c with
  | Return _ => True
  | Throw message => Api.is_rate_limit message = false ∨ last_allowed
  | ThrowUndefined => True
  end.

(** The provider answers the first [failures] requests with HTTP 429 and
    the later ones with one question. *)
Module RateLimitedProvider.

Definition responses (failures : nat) (attempt : nat) : Api.response :=
  if (attempt <=? failures)%nat then Api.Status 429
  else Api.Body 0 [RemoteSession.paris].

End RateLimitedProvider.

(** The provider answers the first request with the [response_code]
    [code] and an empty list, and the later ones with one question. *)
Module ProviderCode.

Definition responses (code : Z) (attempt : nat) : Api.response :=
  if (attempt <=? 1)%nat then Api.Body code []
  else Api.Body 0 [RemoteSession.paris].

End ProviderCode.

(** Three calls of [rateLimitedFetch] within two seconds: the first one
    when the limiter is idle, the other two while it makes them wait. *)
Module OverlappingCalls.

Definition start : Api.network := Api.Network 1000000 0 [] [].

Definition schedule : list Api.step :=
  [Api.Invoke; Api.Elapse 1000; Api.Invoke; Api.Elapse 1000; Api.Invoke;
   Api.Elapse 3000].

End OverlappingCalls.

(** What holds of the rate limiter as long as calls do not overlap: the
    requests sent so far are spaced and none is later than
    [lastRequestTime], and at most one call is suspended, until the end of
    the interval. *)
Definition settled (n : Api.network) : Prop :=
  Api.spaced Api.MIN_REQUEST_INTERVAL (Api.sent n)
  ∧ Forall (λ t, t ≤ Api.lastRequestTime n) (Api.sent n)
  ∧ (Api.sleeping n = []
     ∨ (Api.sleeping n = [Api.lastRequestTime n + Api.MIN_REQUEST_INTERVAL]
        ∧ Api.clock n < Api.lastRequestTime n + Api.MIN_REQUEST_INTERVAL)).

(** The hook is mounted in remote mode while the network is down: every
    request is rejected.  The bundled data has two questions and one is
    asked for. *)
Module OfflineSession.

Definition options : UseQuiz.options :=
  UseQuiz.Options true 1 None None 30.

Definition responses (attempt : nat) : Api.response :=
  Api.Rejected "Failed to fetch".

Definition g0 : random := Random (λ _, 0%nat) 0.

Definition loaded (data : list question) : UseQuiz.state :=
  (UseQuiz.loadQuestions (λ s, s) options data responses g0
                         (UseQuiz.initial options)).1.

End OfflineSession.

(** ** More of [hooks/useQuiz.js]: computed values, the page's handlers
       and the countdown *)

Module Session.

Import UseQuiz.

(** [questions[currentQuestionIndex]] *)
Definition currentQuestion (st : state) : option question :=
  if currentQuestionIndex st <? 0 then None
  else questions st !! Z.to_nat (currentQuestionIndex st).

(** [progress]; the quotient and the product are exact here, where the
    code rounds each of them to a binary64 number. *)
Definition progress (st : state) : JS.number :=
  if (0 <? length (questions st))%nat then
    JS.mul (JS.div (JS.Int (currentQuestionIndex st + 1))
                   (JS.Int (Z.of_nat (length (questions st)))))
           (JS.Int 100)
  else JS.Int 0.

(** [hasSelectedAnswer] *)
Definition hasSelectedAnswer (st : state) : bool :=
  match currentQuestion st with
  | Some q =>
      negb (JS.strict_eq (answer_of (selectedAnswers st) (Question.id q))
                         JS.Undefined)
  | None => false
  end.

(** [canGoNext], [canGoPrevious], [isLastQuestion] *)
Definition canGoNext (st : state) : bool :=
  hasSelectedAnswer st || quizCompleted st.

Definition canGoPrevious (st : state) : bool :=
  (0 <? currentQuestionIndex st) && negb (quizCompleted st).

Definition isLastQuestion (st : state) : bool :=
  currentQuestionIndex st =? Z.of_nat (length (questions st)) - 1.

(** [handleNext] of the quiz page (its [handleTimeUp] has the same body). *)
Definition handleNext (o : options) (ended returned : Z) (st : state)
  : state :=
  if isLastQuestion st then (finishQuiz ended returned st).2
  else nextQuestion o ended returned st.

(** *** The countdown *)

(** What the timer effect does after a render with state [st]: it sets a
    one-second timeout for a tick, or it calls [handleTimeUp], or nothing. *)
Inductive scheduled : Type := Tick | TimeUp | Nothing.

Definition timer_effect (st : state) : scheduled :=
  if timerActive st && (0 <? timeRemaining st) then Tick
  else if (timeRemaining st =? 0) && timerActive st then TimeUp
  else Nothing.

(** The callback of the tick: [setTimeRemaining(prev => prev - 1)]. *)
Definition tick (st : state) : state :=
  State (questions st) (currentQuestionIndex st) (selectedAnswers st)
        (isLoading st) (error st) (quizCompleted st) (score st)
        (timeRemaining st - 1) (timerActive st) (startTime st) (endTime st).

(** [handleTimeUp], its synchronous part: [setTimerActive(false)]. *)
Definition handleTimeUp (st : state) : state :=
  State (questions st) (currentQuestionIndex st) (selectedAnswers st)
        (isLoading st) (error st) (quizCompleted st) (score st)
        (timeRemaining st) false (startTime st) (endTime st).

(** [finishQuiz] as called from a callback that was created in the render
    with state [captured]: it reads [questions], [selectedAnswers] and
    [startTime] of that render, and its [set...] calls act on the state
    [st] of the moment. *)
Definition finishQuiz_from (captured : state) (ended returned : Z)
    (st : state) : Result.t * state :=
  let results :=
    map (outcome_of (selectedAnswers captured)) (questions captured) in
  let correctAnswers := count_correct results in
  (Result.Make correctAnswers (Z.of_nat (length (questions captured)))
               (percent correctAnswers (length (questions captured)))
               results
               (match startTime captured with
                | Some started => returned - started
                | None => 0
                end),
   State (questions st) (currentQuestionIndex st) (selectedAnswers st)
         (isLoading st) (error st) true correctAnswers (timeRemaining st)
         false (startTime st) (Some ended)).

(** The callback that [handleTimeUp] sets for one second later.  It was
    created in the render with state [captured] (the one in which the
    countdown reached 0) and runs on the state [st] of the moment. *)
Definition afterTimeUp (o : options) (captured : state) (ended returned : Z)
    (st : state) : state :=
  if currentQuestionIndex captured
     <? Z.of_nat (length (questions captured)) - 1
  then
    State (questions st) (currentQuestionIndex st + 1) (selectedAnswers st)
          (isLoading st) (error st) (quizCompleted st) (score st)
          (timeLimit o) true (startTime st) (endTime st)
  else (finishQuiz_from captured ended returned st).2.

(** The state once the timer effect of the render with state [st] has
    run: a call of [handleTimeUp] has stopped the timer. *)
Definition after_effect (st : state) : state :=
  match timer_effect st with
  | TimeUp => handleTimeUp st
  | _ => st
  end.

(** One second passes after the render with state [st] and nothing else
    happens: the tick fires when the effect had scheduled one; when the
    effect has called [handleTimeUp], the callback of [handleTimeUp] runs,
    with the clock readings [ended] and [returned] for [finishQuiz]. *)
Definition second (o : options) (ended returned : Z) (st : state) : state :=
  match timer_effect st with
  | Tick => tick st
  | TimeUp => afterTimeUp o st ended returned (handleTimeUp st)
  | Nothing => st
  end.

(** *** Callbacks and the render that created them

    A callback of the hook reads the state of the render that created it
    ([captured]: its guards and the values it computes come from there),
    and its functional updates ([setX(prev => ...)]) act on the state of
    the moment ([st]).  [startQuiz] reads nothing. *)

Definition selectAnswer_from (captured : state) (answerIndex : JS.value)
    (st : state) : state :=
  if quizCompleted captured then st
  else if currentQuestionIndex captured <? 0 then st
  else
    match questions captured !! Z.to_nat (currentQuestionIndex captured) with
    | Some q =>
        let questionId := Question.id q in
        State (questions st) (currentQuestionIndex st)
              (<[questionId := answerIndex]> (selectedAnswers st))
              (isLoading st) (error st) (quizCompleted st) (score st)
              (timeRemaining st) (timerActive st) (startTime st) (endTime st)
    | None => st
    end.

Definition nextQuestion_from (o : options) (captured : state)
    (ended returned : Z) (st : state) : state :=
  if currentQuestionIndex captured
     <? Z.of_nat (length (questions captured)) - 1
  then
    State (questions st) (currentQuestionIndex st + 1) (selectedAnswers st)
          (isLoading st) (error st) (quizCompleted st) (score st)
          (timeLimit o) (timerActive st) (startTime st) (endTime st)
  else (finishQuiz_from captured ended returned st).2.

Definition previousQuestion_from (o : options) (captured : state)
    (st : state) : state :=
  if 0 <? currentQuestionIndex captured then
    State (questions st) (currentQuestionIndex st - 1) (selectedAnswers st)
          (isLoading st) (error st) (quizCompleted st) (score st)
          (timeLimit o) (timerActive st) (startTime st) (endTime st)
  else st.

(** What a user or the page can call between two loads. *)
Inductive action : Type :=
  | Start (now : Z)
  | Select (answerIndex : JS.value)
  | Next (ended returned : Z)
  | Previous
  | Skip (ended returned : Z)
  | Finish (ended returned : Z).

(** The action [a], called from the render with state [captured]. *)
Definition act_from (o : options) (captured : state) (a : action)
    (st : state) : state :=
  match a with
  | Start now => startQuiz now st
  | Select answerIndex => selectAnswer_from captured answerIndex st
  | Next ended returned => nextQuestion_from o captured ended returned st
  | Previous => previousQuestion_from o captured st
  | Skip ended returned => nextQuestion_from o captured ended returned st
  | Finish ended returned => (finishQuiz_from captured ended returned st).2
  end.

(** The calls made from one render, in order: every one of them reads the
    state [st] of that render. *)
Definition in_render (o : options) (l : list action) (st : state)
  : state :=
  foldl (λ s a, act_from o st a s) st l.

(** A sequence of renders, each with the calls made from it. *)
Definition renders (o : options) (ls : list (list action)) (st : state)
  : state :=
  foldl (λ s l, in_render o l s) st ls.

End Session.

(** The session of [LocalSession] at the moment its countdown reaches 0 on
    the last question, which is still unanswered. *)
Module TimedOutSession.

Definition at_zero : UseQuiz.state :=
  UseQuiz.State LocalSession.data 1 {[ 1 := JS.index 0 ]} false None false 0 0
                true (Some 1000) None.

End TimedOutSession.

(** ** More of [utils/api.js]: the limiter's queries, [throttle] and
       [debounce] *)

Module ApiTools.

Import Api.

(** [isRateLimited] *)
Definition isRateLimited (n : network) : bool :=
  let now := clock n in
  let timeSinceLastRequest := now - lastRequestTime n in
  timeSinceLastRequest <? MIN_REQUEST_INTERVAL.

(** [getTimeUntilNextRequest] *)
Definition getTimeUntilNextRequest (n : network) : Z :=
  let now := clock n in
  let timeSinceLastRequest := now - lastRequestTime n in
  Z.max 0 (MIN_REQUEST_INTERVAL - timeSinceLastRequest).

(** The number of calls of [rateLimitedFetch] in a schedule. *)
Definition is_invoke (e : step) : bool :=
  match e with Invoke => true | Elapse _ => false end.

Definition invocations (schedule : list step) : nat :=
  length (filter (λ e, is_invoke e = true) schedule).

(** The attempts made and the time spent in [delay] in a log of
    [fetchQuestionsWithRetry]. *)
Definition is_attempt (a : action) : bool :=
  match a with Attempt _ => true | Delay _ => false end.

Definition attempts_made (log : list action) : nat :=
  length (filter (λ a, is_attempt a = true) log).

Definition total_delay (log : list action) : Z :=
  foldr (λ a sum, match a with Delay ms => ms + sum | Attempt _ => sum end)
        0 log.

(** *** [throttle(func, limit)] *)

(** The throttled function as the event loop sees it: the clock, the
    flag [inThrottle], the time at which the timeout resets the flag
    (there is one timeout at most: one is set only when the flag is off,
    and only a timeout turns it off), and the runs of [func] so far with
    their times and arguments. *)
Record throttled (A : Type) : Type := Throttled {
  t_clock : Z;
  inThrottle : bool;
  release : option Z;
  t_ran : list (Z * A)
}.
Arguments Throttled {A}.
Arguments t_clock {A}.
Arguments inThrottle {A}.
Arguments release {A}.
Arguments t_ran {A}.

(** A call of the throttled function with [args]. *)
Definition throttle_call {A} (limit : Z) (args : A) (s : throttled A)
  : throttled A :=
  if negb (inThrottle s) then
    Throttled (t_clock s) true (Some (t_clock s + limit))
              (t_ran s ++ [(t_clock s, args)])
  else s.

(** [ms] milliseconds pass: the timeout fires if it is due. *)
Definition throttle_elapse {A} (ms : N) (s : throttled A) : throttled A :=
  let target := t_clock s + Z.of_N ms in
  match release s with
  | Some due =>
      if due <=? target then Throttled target false None (t_ran s)
      else Throttled target (inThrottle s) (release s) (t_ran s)
  | None => Throttled target (inThrottle s) (release s) (t_ran s)
  end.

(** A call with its arguments, or time passing. *)
Inductive event (A : Type) : Type :=
  | Call (args : A)
  | Wait (ms : N).
Arguments Call {A}.
Arguments Wait {A}.

Definition throttle_run {A} (limit : Z) (l : list (event A))
    (s : throttled A) : throttled A :=
  foldl (λ s e, match e with
                | Call args => throttle_call limit args s
                | Wait ms => throttle_elapse ms s
                end) s l.

(** *** [debounce(func, wait)] *)

(** The debounced function: the clock, the pending [timeout] with the
    time at which it is due and the arguments of the call that set it, and
    the runs of [func] so far. *)
Record debounced (A : Type) : Type := Debounced {
  d_clock : Z;
  timeout : option (Z * A);
  d_ran : list (Z * A)
}.
Arguments Debounced {A}.
Arguments d_clock {A}.
Arguments timeout {A}.
Arguments d_ran {A}.

(** A call with [args]: [clearTimeout(timeout); timeout =
    setTimeout(later, wait)]. *)
Definition debounce_call {A} (wait : Z) (args : A) (s : debounced A)
  : debounced A :=
  Debounced (d_clock s) (Some (d_clock s + wait, args)) (d_ran s).

(** [ms] milliseconds pass: [later] runs [func] if the timeout is due. *)
Definition debounce_elapse {A} (ms : N) (s : debounced A) : debounced A :=
  let target := d_clock s + Z.of_N ms in
  match timeout s with
  | Some (due, args) =>
      if due <=? target
      then Debounced target None (d_ran s ++ [(Z.max (d_clock s) due, args)])
      else Debounced target (timeout s) (d_ran s)
  | None => Debounced target None (d_ran s)
  end.

Definition debounce_run {A} (wait : Z) (l : list (event A))
    (s : debounced A) : debounced A :=
  foldl (λ s e, match e with
                | Call args => debounce_call wait args s
                | Wait ms => debounce_elapse ms s
                end) s l.

(** A burst: calls that follow the first one, each after a pause. *)
Definition burst {A} (first : A) (later : list (N * A)) : list (event A) :=
  Call first :: flat_map (λ p, [Wait p.1; Call p.2]) later.

End ApiTools.

(** [q] is the question that [fetchQuestionsFromAPI] makes of the
    provider's entry [r]: the decoded text, the decoded answers in some
    order as options, the provider's correct answer and the explanation
    made of it. *)
Definition formatted_from (decode : string → string)
    (r : Api.api_question) (q : question) : Prop :=
  Question.category q = Api.api_category r
  ∧ Question.difficulty q = Api.api_difficulty r
  ∧ Question.question q = decode (Api.api_question_text r)
  ∧ Question.options q
    ≡ₚ map decode (Api.incorrect_answers r) ++ [decode (Api.correct_answer r)]
  ∧ Question.correctAnswer q = JS.String (Api.correct_answer r)
  ∧ Question.explanation q
    = "The correct answer is: " +:+ decode (Api.correct_answer r).

(** Three calls of [rateLimitedFetch], each made after the one before it
    has sent its request. *)
Module SequentialCalls.

Definition schedule : list Api.step :=
  [Api.Invoke; Api.Elapse 1000; Api.Invoke; Api.Elapse 4000; Api.Invoke;
   Api.Elapse 5000].

End SequentialCalls.

(** The time at which a throttled function accepts the next call: the
    time of the pending timeout, or now. *)
Definition gate {A} (s : ApiTools.throttled A) : Z :=
  match ApiTools.release s with
  | Some due => due
  | None => ApiTools.t_clock s
  end.

(** The calls in a list of events. *)
Definition calls {A} (l : list (ApiTools.event A)) : list A :=
  omap (λ e, match e with
             | ApiTools.Call args => Some args
             | ApiTools.Wait _ => None
             end) l.

(** The total of the pauses of a burst. *)
Definition pauses {A} (later : list (N * A)) : Z :=
  foldr (λ p sum, Z.of_N p.1 + sum) 0 later.

(** ** More of [hooks/useLocalStorage.js] and [pages/Results.jsx] *)

Module History.

(** [getAverageScore] of [useHighScores] *)
Definition getAverageScore (highScores : list Score.t) : JS.number :=
  if (length highScores =? 0)%nat then JS.Int 0
  else
    let total :=
      foldl (λ sum score, sum + Score.percentage score) 0 highScores in
    JS.Math_round
      (JS.div (JS.Int total) (JS.Int (Z.of_nat (length highScores)))).

(** The statistics after one [updateStats] per finished quiz, each with
    the time stamp it reads. *)
Definition updateAll (history : list (string * Result.t))
    (s : Storage.stats) : Storage.stats :=
  foldl (λ s r, Storage.updateStats r.1 r.2 s) s history.

(** The test of [updateStats] that keeps a streak. *)
Definition passed (r : string * Result.t) : bool :=
  JS.ge (Result.percentage r.2) (JS.Int 70).

End History.

Module ResultsPage.

(** [a > b] *)
Definition gt (a b : JS.number) : bool :=
  match a, b with
  | JS.Fin x, JS.Fin y => negb (Qle_bool x y)
  | JS.NaN, _ | _, JS.NaN => false
  | JS.PosInfinity, JS.PosInfinity | JS.NegInfinity, JS.NegInfinity => false
  | JS.PosInfinity, _ => true
  | _, JS.NegInfinity => true
  | _, _ => false
  end.

(** [highScores.length === 0 ||
     results.percentage > highScores[0].percentage]; the second operand is
    evaluated on a non-empty list only. *)
Definition isNewHighScore (results : Result.t) (highScores : list Score.t)
  : bool :=
  (length highScores =? 0)%nat
  || match highScores !! 0%nat with
     | Some top =>
         gt (Result.percentage results) (JS.Int (Score.percentage top))
     | None => false
     end.

End ResultsPage.

(** * Properties *)

(** ** The shuffle rearranges its argument *)

Section Shuffle.

Context {A : Type}.
Implicit Types (a : list A) (g : random).

Lemma swap_Permutation a i j : swap a i j ≡ₚ a.
Proof.
  unfold swap.
  destruct (a !! i) as [x|] eqn:Hi; [|done].
  destruct (a !! j) as [y|] eqn:Hj; [|done].
  by apply Permutation_insert_swap.
Qed.

Lemma shuffle_from_Permutation i a g : (shuffle_from i a g).1 ≡ₚ a.
Proof.
  revert a g. induction i as [|i IH]; intros a g; [done|].
  cbn [shuffle_from]. destruct (random_below _ g) as [j g'].
  rewrite IH. apply swap_Permutation.
Qed.

Lemma shuffleArray_Permutation a g : (shuffleArray a g).1 ≡ₚ a.
Proof. apply shuffle_from_Permutation. Qed.

Lemma shuffleQuestions_Permutation a g : (shuffleQuestions a g).1 ≡ₚ a.
Proof. apply shuffle_from_Permutation. Qed.

Lemma shuffleQuestions_length a g :
  length (shuffleQuestions a g).1 = length a.
Proof. by rewrite shuffleQuestions_Permutation. Qed.

End Shuffle.

(** ** Scoring *)

Section Scoring.

Import UseQuiz.

Implicit Types (st : state) (q : question) (answers : gmap Z JS.value).

Lemma number_eq_Int (a b : Z) :
  JS.number_eq (JS.Int a) (JS.Int b) = bool_decide (a = b).
Proof.
  unfold JS.Int, JS.number_eq.
  destruct (Qeq_bool (inject_Z a) (inject_Z b)) eqn:E.
  - apply Qeq_bool_iff in E. apply (proj1 (inject_Z_injective a b)) in E.
    symmetry. by apply bool_decide_eq_true_2.
  - symmetry. apply bool_decide_eq_false_2. intros ->.
    assert (Qeq_bool (inject_Z b) (inject_Z b) = true) as E'
      by (apply Qeq_bool_iff; reflexivity).
    congruence.
Qed.

Lemma strict_eq_index (i j : nat) :
  JS.strict_eq (JS.index i) (JS.index j) = bool_decide (i = j).
Proof.
  unfold JS.index, JS.strict_eq. rewrite number_eq_Int.
  apply bool_decide_ext. lia.
Qed.

(** A question whose [correctAnswer] is an option index, as in the bundled
    data, is counted correct exactly when the option recorded under its id
    is that index. *)
Lemma outcome_of_index_question answers q (i k : nat) :
  Question.correctAnswer q = JS.index k →
  answers !! Question.id q = Some (JS.index i) →
  Result.isCorrect (outcome_of answers q) = true ↔ i = k.
Proof.
  intros Hk Hi. unfold outcome_of, answer_of. cbn [Result.isCorrect].
  rewrite Hi, Hk. cbv beta iota. rewrite strict_eq_index.
  apply bool_decide_eq_true.
Qed.

(** A question without a recorded answer is not counted correct, as long
    as it has a [correctAnswer] at all. *)
Lemma outcome_of_unanswered answers q :
  Question.correctAnswer q ≠ JS.Undefined →
  answers !! Question.id q = None →
  Result.isCorrect (outcome_of answers q) = false.
Proof.
  intros Hc Hi. unfold outcome_of, answer_of. cbn [Result.isCorrect].
  rewrite Hi. cbv beta iota.
  by destruct (Question.correctAnswer q).
Qed.

(** An option index is never [===] to a string. *)
Lemma strict_eq_index_String (i : nat) (s : string) :
  JS.strict_eq (JS.index i) (JS.String s) = false.
Proof. reflexivity. Qed.

(** On the session of the bundled data, one answer of two is right. *)
Example finishQuiz_local_session :
  let r := (finishQuiz 60000 60000 LocalSession.answered).1 in
  Result.isCorrect <$> Result.results r = [true; false]
  ∧ Result.score r = 1
  ∧ Result.total r = 2
  ∧ Result.percentage r = JS.Int 50.
Proof. cbv zeta. split_and!; reflexivity. Qed.

(** Every question that [fetchQuestionsFromAPI] returns holds the
    provider's answer text in [correctAnswer], not an option index. *)
Lemma formattedQuestions_correctAnswer decode index results g :
  Forall (λ q, ∃ s, Question.correctAnswer q = JS.String s)
         (Api.formattedQuestions decode index results g).1.
Proof.
  revert index g. induction results as [|r results IH]; intros index g.
  - constructor.
  - cbn [Api.formattedQuestions].
    destruct (shuffleArray _ g) as [opts g1].
    specialize (IH (S index) g1).
    destruct (Api.formattedQuestions decode (S index) results g1) as [qs g2].
    constructor; [by eexists | exact IH].
Qed.

Lemma fetchQuestionsFromAPI_correctAnswer decode r g qs g' :
  Api.fetchQuestionsFromAPI decode r g = (Return qs, g') →
  Forall (λ q, ∃ s, Question.correctAnswer q = JS.String s) qs.
Proof.
  unfold Api.fetchQuestionsFromAPI. destruct r as [m|status|code results];
    [done | done |].
  destruct (Api.code_error code); [done|].
  pose proof (formattedQuestions_correctAnswer decode 0 results g) as H.
  destruct (Api.formattedQuestions decode 0 results g) as [fq g1].
  pose proof (shuffleArray_Permutation fq g1) as Hp.
  destruct (shuffleArray fq g1) as [sh g2]. intros [= <- <-].
  cbn [fst] in *. by rewrite Hp.
Qed.

(** So whichever option is recorded for it, a question from the provider
    is counted wrong. *)
Lemma outcome_of_remote_question decode r g qs g' answers q (i : nat) :
  Api.fetchQuestionsFromAPI decode r g = (Return qs, g') →
  q ∈ qs →
  answers !! Question.id q = Some (JS.index i) →
  Result.isCorrect (outcome_of answers q) = false.
Proof.
  intros Hf Hq Hi. apply fetchQuestionsFromAPI_correctAnswer in Hf.
  rewrite Forall_forall in Hf. destruct (Hf q Hq) as [s Hs].
  unfold outcome_of, answer_of. cbn [Result.isCorrect].
  by rewrite Hi, Hs.
Qed.

(** A session on questions from the provider, with option indices as
    answers, always ends with the score 0. *)
Lemma finishQuiz_remote_score decode r g qs g' st (ended returned : Z) :
  Api.fetchQuestionsFromAPI decode r g = (Return qs, g') →
  questions st = qs →
  (∀ id v, selectedAnswers st !! id = Some v → ∃ i : nat, v = JS.index i) →
  Result.score (finishQuiz ended returned st).1 = 0.
Proof.
  intros Hf Hqs Hanswers. apply fetchQuestionsFromAPI_correctAnswer in Hf.
  unfold finishQuiz. cbn [fst Result.score]. unfold count_correct.
  rewrite Hqs. clear Hqs.
  induction Hf as [|q qs' [s Hs] _ IH]; [done|].
  cbn [map]. rewrite filter_cons_False; [exact IH|].
  unfold outcome_of, answer_of. cbn [Result.isCorrect]. rewrite Hs.
  destruct (selectedAnswers st !! Question.id q) as [v|] eqn:Hv; [|done].
  destruct (Hanswers _ _ Hv) as [i ->]. done.
Qed.

End Scoring.

(** C1, at a session on a question from the provider.  The options of
    the loaded question are [Rome; Berlin; Paris; London] and the provider's
    correct answer is [Paris]; the user chooses option 2, which is
    [Paris], and it is recorded under the question's id.  [finishQuiz]
    compares the recorded index with the answer text, so the question is
    counted wrong and the score is 0 of 1. *)
Theorem finishQuiz_remote_right_option_counted_wrong :
  ∃ q,
    UseQuiz.questions RemoteSession.answered = [q]
    ∧ Question.options q !! RemoteSession.right_option = Some "Paris"
    ∧ Question.correctAnswer q = JS.String "Paris"
    ∧ UseQuiz.selectedAnswers RemoteSession.answered !! Question.id q
      = Some (JS.index RemoteSession.right_option)
    ∧ let r := (UseQuiz.finishQuiz 9000 9000 RemoteSession.answered).1 in
      Result.isCorrect <$> Result.results r = [false]
      ∧ Result.score r = 0
      ∧ Result.total r = 1
      ∧ Result.percentage r = JS.Int 0.
Proof.
  eexists. vm_compute. repeat split; reflexivity.
Qed.

(** ** Finishing a quiz *)

Section Finishing.

Import UseQuiz.

(** C2, as stated, fails: [finishQuiz] has no guard on [quizCompleted].
    Called at 60000 and again at 61000 on the same session, it returns two
    different results (the elapsed time is read from the clock again) and
    it overwrites the recorded end time. *)
Lemma finishQuiz_again_differs :
  let first := finishQuiz 60000 60000 LocalSession.answered in
  let second := finishQuiz 61000 61000 first.2 in
  quizCompleted first.2 = true
  ∧ Result.timeTaken first.1 = 59000
  ∧ Result.timeTaken second.1 = 60000
  ∧ second.1 ≠ first.1
  ∧ endTime first.2 = Some 60000
  ∧ endTime second.2 = Some 61000
  ∧ second.2 ≠ first.2.
Proof.
  cbv zeta. repeat split; try reflexivity.
  - intros H. apply (f_equal Result.timeTaken) in H. discriminate H.
  - intros H. apply (f_equal endTime) in H. discriminate H.
Qed.

(** C2, amended.  [finishQuiz] has no guard on [quizCompleted] and does
    not return a stored result: every call, also on a completed session,
    computes its result from the questions, the answers and the start time
    of the render that created it ([captured1] for the first call,
    [captured2] for the second; a direct call is one from the render of
    the current state) and stores its own count as the score.  So the
    second call returns the score, total, percentage and outcomes of the
    first when its render has the questions and answers of the first
    call's render, as every render that follows a direct first call has;
    its elapsed time is measured from the start time of its render to the
    clock at the second call; and it leaves the state as the first call
    left it, except that the score is its own count and [endTime] the time
    of the second call. *)
Theorem finishQuiz_again (captured1 captured2 st : state)
    (ended1 returned1 ended2 returned2 : Z) :
  let first := Session.finishQuiz_from captured1 ended1 returned1 st in
  let second := Session.finishQuiz_from captured2 ended2 returned2 first.2 in
  finishQuiz ended1 returned1 st
  = Session.finishQuiz_from st ended1 returned1 st
  ∧ quizCompleted first.2 = true
  ∧ (questions first.2 = questions st
     ∧ selectedAnswers first.2 = selectedAnswers st
     ∧ startTime first.2 = startTime st)
  ∧ Result.score second.1
    = count_correct
        (map (outcome_of (selectedAnswers captured2)) (questions captured2))
  ∧ (questions captured2 = questions captured1 →
     selectedAnswers captured2 = selectedAnswers captured1 →
     Result.score second.1 = Result.score first.1
     ∧ Result.total second.1 = Result.total first.1
     ∧ Result.percentage second.1 = Result.percentage first.1
     ∧ Result.results second.1 = Result.results first.1)
  ∧ Result.timeTaken second.1
    = match startTime captured2 with
      | Some started => returned2 - started
      | None => 0
      end
  ∧ second.2
    = State (questions first.2) (currentQuestionIndex first.2)
            (selectedAnswers first.2) (isLoading first.2) (error first.2)
            (quizCompleted first.2) (Result.score second.1)
            (timeRemaining first.2) (timerActive first.2) (startTime first.2)
            (Some ended2).
Proof.
  cbv zeta. split_and!; try reflexivity.
  intros Hq Ha. cbn. rewrite Hq, Ha. done.
Qed.

(** Once the quiz is completed, [selectAnswer] changes nothing: the
    answers that a later [finishQuiz] scores are the ones of the first. *)
Lemma selectAnswer_completed answerIndex st :
  quizCompleted st = true → selectAnswer answerIndex st = st.
Proof. intros H. unfold selectAnswer. by rewrite H. Qed.

(** After [finishQuiz], [quizResults] shows the score, total, percentage
    and outcomes that the call returned. *)
Lemma quizResults_finishQuiz st (ended returned : Z) :
  let done := finishQuiz ended returned st in
  quizResults done.2
  = Some (Result.Make (Result.score done.1) (Result.total done.1)
            (Result.percentage done.1) (Result.results done.1)
            (match startTime st with
             | Some started => ended - started
             | None => 0
             end)).
Proof. cbv zeta. cbn. by destruct (startTime st). Qed.

End Finishing.

(** The session of [TimedOutSession]: the last question is answered
    during the delay of [handleTimeUp], the user finishes the quiz (score
    2), and then the callback of [handleTimeUp] finishes it again with the
    answers of its render (score 1). *)
Lemma finishQuiz_again_witness :
  let late :=
    UseQuiz.selectAnswer (JS.index 1)
      (Session.handleTimeUp TimedOutSession.at_zero) in
  let first := Session.finishQuiz_from late 31500 31500 late in
  let second :=
    Session.finishQuiz_from TimedOutSession.at_zero 32000 32000 first.2 in
  UseQuiz.finishQuiz 31500 31500 late = first
  ∧ UseQuiz.score first.2 = 2
  ∧ UseQuiz.score second.2 = 1
  ∧ UseQuiz.endTime second.2 = Some 32000.
Proof.
  cbv zeta.
  destruct (finishQuiz_again
              (UseQuiz.selectAnswer (JS.index 1)
                 (Session.handleTimeUp TimedOutSession.at_zero))
              TimedOutSession.at_zero
              (UseQuiz.selectAnswer (JS.index 1)
                 (Session.handleTimeUp TimedOutSession.at_zero))
              31500 31500 32000 32000)
    as (Hdirect & _ & _ & Hcount & _ & _ & Hstate).
  cbv zeta in Hdirect, Hcount, Hstate.
  split_and!.
  - exact Hdirect.
  - reflexivity.
  - rewrite Hstate. cbn [UseQuiz.score]. rewrite Hcount. reflexivity.
  - rewrite Hstate. reflexivity.
Defined.

(** ** Percentages *)

Section Percentages.

Import UseQuiz.

Lemma calculatePercentage_zero_total (correct : JS.number) :
  Api.calculatePercentage correct (JS.Int 0) = JS.Int 0.
Proof. reflexivity. Qed.

(** With a positive number of questions the percentage is the nearest
    integer to [100 * n / len], a tie going up, and [calculatePercentage]
    agrees with it.  The quotient is exact here; the code rounds it and
    the product to binary64 numbers first, which decides a tie such as 23
    of 40. *)
Lemma percent_positive (n : Z) (len : nat) :
  (0 < len)%nat →
  percent n len = JS.Int ((200 * n + Z.of_nat len) / (2 * Z.of_nat len)).
Proof.
  intros Hlen. unfold percent, JS.div, JS.mul, JS.Int.
  assert (¬ inject_Z (Z.of_nat len) == 0)%Q as Hnz.
  { intros H. apply (proj1 (inject_Z_injective _ 0)) in H. lia. }
  destruct (Qeq_bool (inject_Z (Z.of_nat len)) 0) eqn:E.
  { by apply Qeq_bool_iff in E. }
  unfold JS.Math_round, JS.Int. do 2 f_equal.
  rewrite Zdiv_Qdiv. apply Qfloor_comp.
  rewrite !Qred_correct, inject_Z_plus, !inject_Z_mult.
  field. exact Hnz.
Qed.

Lemma calculatePercentage_positive (n : Z) (len : nat) :
  (0 < len)%nat →
  Api.calculatePercentage (JS.Int n) (JS.Int (Z.of_nat len)) = percent n len.
Proof.
  intros Hlen. unfold Api.calculatePercentage.
  rewrite number_eq_Int, bool_decide_eq_false_2 by lia. reflexivity.
Qed.

(** C3, at a session without questions (the state of the hook before a
    load has succeeded): [finishQuiz] and [quizResults] divide 0 by 0 and
    report the percentage [NaN], where [calculatePercentage] has a guard
    and returns 0. *)
Theorem percentage_of_empty_session (o : options) (ended returned : Z) :
  let done := finishQuiz ended returned (initial o) in
  Result.total done.1 = 0
  ∧ Result.percentage done.1 = JS.NaN
  ∧ (Result.percentage <$> quizResults done.2) = Some JS.NaN
  ∧ Api.calculatePercentage (JS.Int (Result.score done.1))
                            (JS.Int (Result.total done.1)) = JS.Int 0.
Proof. cbv zeta. repeat split; reflexivity. Qed.

End Percentages.

(** ** Sorting by a key, greatest first *)

Section SortDescending.

Context {A : Type} (key : A → Z).

Let compare (a b : A) : Z := key b - key a.

Implicit Types (x y : A) (l : list A) (p : Z).

Lemma insert_sorted_Permutation x l :
  JS.insert_sorted compare x l ≡ₚ x :: l.
Proof.
  induction l as [|y l IH]; [done|]. cbn [JS.insert_sorted].
  destruct (compare x y <=? 0); [done|].
  rewrite IH. apply Permutation_swap.
Qed.

Lemma sort_Permutation l : JS.sort compare l ≡ₚ l.
Proof.
  induction l as [|x l IH]; [done|]. cbn [JS.sort].
  by rewrite insert_sorted_Permutation, IH.
Qed.

Lemma sort_length l : length (JS.sort compare l) = length l.
Proof. by rewrite sort_Permutation. Qed.

Lemma insert_sorted_descending x l :
  descending key l → descending key (JS.insert_sorted compare x l).
Proof.
  unfold descending.
  induction l as [|y l IH]; intros Hl; cbn [JS.insert_sorted].
  - repeat constructor.
  - apply StronglySorted_inv in Hl as [Hl Hy].
    destruct (Z.leb_spec (compare x y) 0) as [Hle|Hgt];
      unfold compare in Hle || unfold compare in Hgt.
    + constructor; [by constructor|].
      constructor; [lia|]. eapply Forall_impl; [exact Hy|].
      intros z Hz. cbn in Hz. lia.
    + constructor; [by apply IH|].
      rewrite (insert_sorted_Permutation x l).
      constructor; [lia | exact Hy].
Qed.

Lemma sort_descending l : descending key (JS.sort compare l).
Proof.
  induction l as [|x l IH]; cbn [JS.sort].
  - constructor.
  - by apply insert_sorted_descending.
Qed.

(** The sort is stable: the elements of one key keep their order. *)
Lemma insert_sorted_filter x l p :
  filter (λ a, key a = p) (JS.insert_sorted compare x l)
  = filter (λ a, key a = p) (x :: l).
Proof.
  induction l as [|y l IH]; cbn [JS.insert_sorted]; [done|].
  destruct (Z.leb_spec (compare x y) 0) as [Hle|Hgt]; [done|].
  unfold compare in Hgt.
  rewrite filter_cons, IH, !filter_cons.
  destruct (decide (key y = p)), (decide (key x = p)); try done; lia.
Qed.

Lemma sort_filter l p :
  filter (λ a, key a = p) (JS.sort compare l) = filter (λ a, key a = p) l.
Proof.
  induction l as [|x l IH]; [done|]. cbn [JS.sort].
  by rewrite insert_sorted_filter, !filter_cons, IH.
Qed.

Lemma descending_take n l : descending key l → descending key (take n l).
Proof.
  unfold descending. intros Hl. revert n.
  induction Hl as [|x l Hl IH Hx]; intros [|n]; cbn; try constructor.
  - apply IH.
  - by apply Forall_take.
Qed.

(** The first element of a descending list has the greatest key. *)
Lemma descending_head x l :
  descending key (x :: l) → Forall (λ a, key a ≤ key x) (x :: l).
Proof.
  intros H. apply StronglySorted_inv in H as [_ H].
  constructor; [lia | exact H].
Qed.

(** The last element of a descending list has the least key. *)
Lemma descending_last l x :
  descending key (l ++ [x]) → Forall (λ a, key x ≤ key a) l.
Proof.
  unfold descending. induction l as [|y l IH]; intros H; [constructor|].
  cbn in H. apply StronglySorted_inv in H as [H Hy].
  constructor; [|by apply IH].
  rewrite Forall_app, Forall_singleton in Hy. tauto.
Qed.

(** What comes after in a descending list has a key that is not greater. *)
Lemma descending_app l1 l2 :
  descending key (l1 ++ l2) →
  Forall (λ b, Forall (λ a, key b ≤ key a) l1) l2.
Proof.
  unfold descending. induction l1 as [|x l1 IH]; intros H.
  - apply Forall_true. intros b. constructor.
  - cbn in H. apply StronglySorted_inv in H as [H Hx].
    apply Forall_app in Hx as [_ Hx]. specialize (IH H).
    apply Forall_forall. intros b Hb. constructor.
    + by eapply Forall_forall in Hx.
    + by eapply Forall_forall in IH.
Qed.

(** An element whose key is not greater than any other, appended at the
    end, stays at the end. *)
Lemma insert_sorted_snoc x y l :
  key x ≤ key y →
  JS.insert_sorted compare y (l ++ [x]) = JS.insert_sorted compare y l ++ [x].
Proof.
  intros Hxy. induction l as [|z l IH]; cbn [JS.insert_sorted app].
  - destruct (Z.leb_spec (compare y x) 0) as [H|H]; [done|].
    unfold compare in H. lia.
  - destruct (compare y z <=? 0); [done|]. by rewrite IH.
Qed.

Lemma sort_snoc_least x l :
  Forall (λ a, key x ≤ key a) l →
  JS.sort compare (l ++ [x]) = JS.sort compare l ++ [x].
Proof.
  induction 1 as [|y l Hy Hl IH]; [done|].
  cbn [JS.sort app]. rewrite IH. by apply insert_sorted_snoc.
Qed.

End SortDescending.

(** ** The high-score list *)

Section Ledger.

Import Storage.

Implicit Types (d e : Score.t) (scores prev : list Score.t) (p now : Z).

Local Abbreviation pct := Score.percentage.
Local Abbreviation ties p scores := (filter (λ e : Score.t, pct e = p) scores).

Lemma slice0_take {A} (l : list A) (e : Z) :
  0 ≤ e → JS.slice0 l e = take (Z.to_nat e) l.
Proof.
  intros He. unfold JS.slice0.
  destruct (Z.ltb_spec e 0) as [?|_]; [lia|].
  destruct (Z.le_ge_cases e (Z.of_nat (length l))) as [H|H].
  - by rewrite Z.min_l.
  - rewrite Z.min_r, Nat2Z.id, firstn_all by done.
    symmetry. apply take_ge. lia.
Qed.

Lemma addScore_take now iso d prev :
  addScore now iso d prev
  = take 10 (JS.sort Score.by_percentage (prev ++ [newScore now iso d])).
Proof. unfold addScore. by rewrite slice0_take. Qed.

Lemma saveScore_take d prev :
  Api.saveScore d prev = take 10 (JS.sort Score.by_percentage (prev ++ [d])).
Proof. unfold Api.saveScore. by rewrite slice0_take. Qed.

Lemma addScores_snoc records r scores :
  addScores (records ++ [r]) scores
  = addScore r.1.1 r.1.2 r.2 (addScores records scores).
Proof. unfold addScores. rewrite foldl_app. by destruct r as [[now iso] d]. Qed.

Lemma getBestScore_head scores : getBestScore scores = head scores.
Proof. by destruct scores. Qed.

(** C8.  After [addScore] the stored list has at most 10 entries in
    descending order of percentage; what is cut off ([evicted], one entry
    when 10 were stored) has a percentage that is not greater than any
    stored one; [getBestScore] returns a stored entry with the greatest
    percentage, and nothing on the empty list; [saveScore] stores the same
    list.  After recording 20, 95 and 60 in this order, [getBestScore]
    returns the entry of 95. *)
Theorem addScore_keeps_top10 now (iso : string) d prev (r1 r2 r3 : record) :
  pct (recorded r1) = 20 →
  pct (recorded r2) = 95 →
  pct (recorded r3) = 60 →
  let new := newScore now iso d in
  let stored := addScore now iso d prev in
  let evicted := drop 10 (JS.sort Score.by_percentage (prev ++ [new])) in
  (length stored ≤ 10)%nat
  ∧ descending pct stored
  ∧ prev ++ [new] ≡ₚ stored ++ evicted
  ∧ length evicted = (length prev + 1 - 10)%nat
  ∧ Forall (λ v, Forall (λ e, pct v ≤ pct e) stored) evicted
  ∧ (∃ best, getBestScore stored = Some best ∧ best ∈ stored
             ∧ Forall (λ e, pct e ≤ pct best) stored)
  ∧ getBestScore [] = None
  ∧ Api.saveScore new prev = stored
  ∧ getBestScore (addScores [r1; r2; r3] []) = Some (recorded r2).
Proof.
  intros H1 H2 H3 new stored evicted.
  assert (stored = take 10 (JS.sort Score.by_percentage (prev ++ [new])))
    as Hstored by apply addScore_take.
  pose proof (sort_descending pct (prev ++ [new])) as Hdesc.
  pose proof (sort_length pct (prev ++ [new])) as Hlen.
  rewrite length_app in Hlen. cbn [length] in Hlen.
  assert (stored ++ evicted = JS.sort Score.by_percentage (prev ++ [new]))
    as Hsplit by (rewrite Hstored; apply take_drop).
  split_and!.
  - rewrite Hstored, length_take. lia.
  - rewrite Hstored. by apply descending_take.
  - rewrite Hsplit. symmetry. apply (sort_Permutation pct).
  - unfold evicted. rewrite length_drop.
    change Score.by_percentage with (λ a b : Score.t, pct b - pct a).
    lia.
  - apply (descending_app pct). by rewrite Hsplit.
  - destruct stored as [|best rest] eqn:E.
    + apply (f_equal length) in Hstored. rewrite length_take in Hstored.
      change Score.by_percentage with (λ a b : Score.t, pct b - pct a)
        in Hstored.
      cbn [length] in Hstored. lia.
    + exists best. split_and!; [done | apply list_elem_of_here |].
      apply (descending_head pct). rewrite Hstored.
      by apply descending_take.
  - done.
  - by rewrite saveScore_take.
  - destruct r1 as [[n1 i1] [s1 t1 p1 ? ? ? ? ?]],
             r2 as [[n2 i2] [s2 t2 p2 ? ? ? ? ?]],
             r3 as [[n3 i3] [s3 t3 p3 ? ? ? ? ?]].
    cbn in H1, H2, H3. subst p1 p2 p3. reflexivity.
Qed.

Lemma addScore_keeps_top10_witness :
  let score (p : Z) : Score.t := Score.Make 0 10 p "easy" 0 "Mixed" None None in
  let r1 : record := (1, "t1", score 20) in
  let r2 : record := (2, "t2", score 95) in
  let r3 : record := (3, "t3", score 60) in
  pct (recorded r1) = 20 ∧ pct (recorded r2) = 95 ∧ pct (recorded r3) = 60
  ∧ getBestScore (addScores [r1; r2; r3] []) = Some (recorded r2).
Proof.
  intros score r1 r2 r3.
  pose proof (addScore_keeps_top10 4 "t4" (score 50) [] r1 r2 r3
                eq_refl eq_refl eq_refl) as H.
  split_and!; [reflexivity | reflexivity | reflexivity | apply H].
Defined.

Lemma prefix_filter {A} (P : A → Prop) `{∀ x, Decision (P x)}
    (l1 l2 : list A) :
  l1 `prefix_of` l2 → filter P l1 `prefix_of` filter P l2.
Proof. intros [k ->]. rewrite filter_app. by apply prefix_app_r. Qed.

(** One [addScore] keeps the following true of a percentage [p]: the
    stored entries of percentage [p] are the first ones of the history,
    in their order, and as soon as one of them is missing the list is full
    of entries that are at least as good. *)
Lemma addScore_ties history prev now (iso : string) d p :
  ties p prev `prefix_of` ties p history →
  ties p prev = ties p history
    ∨ (length prev = 10%nat ∧ Forall (λ e, p ≤ pct e) prev) →
  let new := newScore now iso d in
  let stored := addScore now iso d prev in
  ties p stored `prefix_of` ties p (history ++ [new])
  ∧ (ties p stored = ties p (history ++ [new])
     ∨ (length stored = 10%nat ∧ Forall (λ e, p ≤ pct e) stored)).
Proof.
  intros Hprefix Hinv new stored.
  assert (stored = take 10 (JS.sort Score.by_percentage (prev ++ [new])))
    as Hstored by apply addScore_take.
  set (sorted := JS.sort Score.by_percentage (prev ++ [new])) in *.
  assert (ties p sorted = ties p prev ++ ties p [new]) as Hties.
  { unfold sorted. by rewrite (sort_filter pct), filter_app. }
  assert (length sorted = S (length prev)) as Hlen.
  { unfold sorted. rewrite (sort_length pct), length_app. cbn. lia. }
  assert (ties p stored `prefix_of` ties p sorted) as Hpre.
  { rewrite Hstored. apply prefix_filter, prefix_take. }
  destruct Hinv as [Heq | [Hfull Hgood]].
  - (* nothing of percentage [p] is missing so far *)
    rewrite filter_app, <- Heq, <- Hties. split; [done|].
    destruct (ties p (drop 10 sorted)) as [|v vs] eqn:Hcut.
    + left. rewrite <- (take_drop 10 sorted) at 1.
      by rewrite filter_app, Hcut, app_nil_r, Hstored.
    + right.
      assert (v ∈ ties p (drop 10 sorted)) as Hv
        by (rewrite Hcut; apply list_elem_of_here).
      apply list_elem_of_filter in Hv as [Hvp Hv].
      assert (10 < length sorted)%nat as Hlong.
      { destruct (decide (10 < length sorted)%nat); [done|].
        rewrite drop_ge in Hv by lia. by apply elem_of_nil in Hv. }
      split; [rewrite Hstored, length_take; lia|].
      assert (descending pct sorted) as Hdesc
        by apply (sort_descending pct).
      rewrite <- (take_drop 10 sorted) in Hdesc.
      apply (descending_app pct) in Hdesc.
      rewrite Forall_forall in Hdesc. specialize (Hdesc v Hv).
      rewrite Hstored, <- Hvp. exact Hdesc.
  - (* the list is full of entries that are at least as good *)
    destruct (decide (pct new ≤ p)) as [Hle|Hgt].
    + assert (sorted = JS.sort Score.by_percentage prev ++ [new]) as Hsnoc.
      { apply (sort_snoc_least pct). eapply Forall_impl; [exact Hgood|].
        intros e He. cbn in He. lia. }
      assert (stored = JS.sort Score.by_percentage prev) as Hsame.
      { rewrite Hstored, Hsnoc. apply take_app_length'.
        by rewrite (sort_length pct). }
      rewrite Hsame, (sort_filter pct). split.
      * rewrite filter_app. by apply prefix_app_r.
      * right. split; [by rewrite (sort_length pct)|].
        by rewrite (sort_Permutation pct).
    + assert (ties p [new] = []) as Hnone.
      { rewrite filter_cons, decide_False by lia. done. }
      rewrite Hties, Hnone, app_nil_r in Hpre. split.
      * rewrite filter_app. apply prefix_app_r. by etrans.
      * right. split; [rewrite Hstored, length_take; lia|].
        rewrite Hstored. apply Forall_take. unfold sorted.
        rewrite (sort_Permutation pct), Forall_app, Forall_singleton.
        split; [done | lia].
Qed.

(** The same, after any sequence of record operations. *)
Lemma addScores_ties records highScores p :
  let history := highScores ++ (recorded <$> records) in
  let stored := addScores records highScores in
  ties p stored `prefix_of` ties p history
  ∧ (ties p stored = ties p history
     ∨ (length stored = 10%nat ∧ Forall (λ e, p ≤ pct e) stored)).
Proof.
  induction records as [|r records IH] using rev_ind; cbv zeta.
  - cbn. rewrite app_nil_r. auto.
  - destruct IH as [IH1 IH2].
    rewrite addScores_snoc, fmap_app, app_assoc.
    destruct r as [[now iso] d]. by apply addScore_ties.
Qed.

Lemma last_filter {A} (P : A → Prop) `{∀ x, Decision (P x)}
    (l : list A) (x : A) :
  last l = Some x → P x → last (filter P l) = Some x.
Proof.
  intros Hl Hx. apply last_Some in Hl as [l' ->].
  rewrite filter_app, filter_cons, decide_True by done.
  cbn. by rewrite last_snoc.
Qed.

(** C10.  [addScore] appends the new entry to the stored list, sorts the
    list by percentage alone, greatest first, with a stable sort, and
    keeps the first 10: [sorted] is a rearrangement of the stored entries
    and the new one in descending order of percentage in which the entries
    of every percentage [p] keep their order, the previous ones before the
    new one.  What is cut off comes from the end of [sorted]: no entry
    there is better than a kept one, and the last entry of [sorted] has
    the least percentage of all and is the last of the entries of that
    percentage, the new one if it is among them.  After any number of
    record operations the stored entries of a percentage are the earliest
    recorded ones in recording order, and [getBestScore] returns the
    first recorded of all the entries that ever had its percentage. *)
Theorem addScores_rank_ties_by_recording_order
    (records : list record) highScores now (iso : string) d p :
  let history := highScores ++ (recorded <$> records) in
  let stored := addScores records highScores in
  let new := newScore now iso d in
  let sorted := JS.sort Score.by_percentage (stored ++ [new]) in
  let kept := addScore now iso d stored in
  let evicted := drop 10 sorted in
  kept ++ evicted = sorted
  ∧ length evicted = (length stored + 1 - 10)%nat
  ∧ sorted ≡ₚ stored ++ [new]
  ∧ descending pct sorted
  ∧ ties p sorted = ties p stored ++ ties p [new]
  ∧ ties p kept ++ ties p evicted = ties p stored ++ ties p [new]
  ∧ Forall (λ v, Forall (λ e, pct v ≤ pct e) kept) evicted
  ∧ match last sorted with
    | Some v =>
        Forall (λ e, pct v ≤ pct e) (stored ++ [new])
        ∧ last (ties (pct v) (stored ++ [new])) = Some v
    | None => False
    end
  ∧ ties p stored `prefix_of` ties p history
  ∧ match getBestScore stored with
    | Some best => head (ties (pct best) history) = Some best
    | None => stored = []
    end.
Proof.
  intros history stored new sorted kept evicted.
  assert (kept = take 10 sorted) as Hkept by apply addScore_take.
  assert (kept ++ evicted = sorted) as Hsplit
    by (rewrite Hkept; apply take_drop).
  pose proof (sort_descending pct (stored ++ [new])) as Hdesc.
  pose proof (sort_Permutation pct (stored ++ [new])) as Hperm.
  pose proof (sort_length pct (stored ++ [new])) as Hlen.
  pose proof (λ p, sort_filter pct (stored ++ [new]) p) as Hstable.
  change (JS.sort (λ a b : Score.t, pct b - pct a) (stored ++ [new]))
    with sorted in Hdesc, Hperm, Hlen, Hstable.
  rewrite length_app in Hlen. cbn [length] in Hlen.
  split_and!.
  - done.
  - unfold evicted. rewrite length_drop. lia.
  - done.
  - done.
  - by rewrite Hstable, filter_app.
  - by rewrite <- filter_app, Hsplit, Hstable, filter_app.
  - apply (descending_app pct). by rewrite Hsplit.
  - destruct (last sorted) as [v|] eqn:Hlast.
    + split.
      * rewrite <- Hperm.
        pose proof Hlast as Hv. apply last_Some in Hv as [l' Hl'].
        rewrite Hl' in Hdesc |- *.
        apply Forall_app. split; [by apply (descending_last pct)|].
        by apply Forall_singleton.
      * rewrite <- Hstable. by apply last_filter.
    + apply last_None in Hlast. rewrite Hlast in Hlen. cbn in Hlen. lia.
  - apply addScores_ties.
  - rewrite getBestScore_head.
    destruct stored as [|best rest] eqn:E; [done|]. cbn [head].
    destruct (addScores_ties records highScores (pct best)) as [[k Hk] _].
    fold history in Hk. rewrite Hk. fold stored. rewrite E.
    by rewrite filter_cons, decide_True.
Qed.

End Ledger.

(** ** Statistics *)

Section Statistics.

Import Storage.

Lemma ge_Int (a b : Z) : JS.ge (JS.Int a) (JS.Int b) = bool_decide (b ≤ a).
Proof.
  unfold JS.ge, JS.Int.
  destruct (Qle_bool (inject_Z b) (inject_Z a)) eqn:E; symmetry.
  - apply bool_decide_eq_true_2. apply Qle_bool_iff in E.
    by rewrite <- Zle_Qle in E.
  - apply bool_decide_eq_false_2. intros H. rewrite Zle_Qle in H.
    apply Qle_bool_iff in H. congruence.
Qed.

(** C9.  [updateStats] sets [currentStreak] to the previous value plus 1
    when the percentage of the result is at least 70 and to 0 otherwise
    (also for the percentage [NaN]), and [bestStreak] to the greater of its
    previous value and the new [currentStreak]; for an integer percentage
    the test is [70 <= percentage].  Three updates with the percentages
    80, 50 and 90 on the zeroed statistics end with both streaks at 1. *)
Theorem updateStats_streaks (iso iso1 iso2 iso3 : string)
    (quizResult : Result.t) (prevStats : stats)
    (score total timeTaken : Z) (results : list Result.outcome)
    (percentage : Z) :
  let after := updateStats iso quizResult prevStats in
  let result (p : Z) := Result.Make score total (JS.Int p) results timeTaken in
  let third :=
    updateStats iso3 (result 90)
      (updateStats iso2 (result 50) (updateStats iso1 (result 80) zero_stats)) in
  currentStreak after
    = (if JS.ge (Result.percentage quizResult) (JS.Int 70)
       then currentStreak prevStats + 1 else 0)
  ∧ bestStreak after = Z.max (bestStreak prevStats) (currentStreak after)
  ∧ currentStreak (updateStats iso (result percentage) prevStats)
    = (if bool_decide (70 ≤ percentage) then currentStreak prevStats + 1
       else 0)
  ∧ currentStreak third = 1
  ∧ bestStreak third = 1.
Proof.
  cbv zeta. split_and!; try reflexivity.
  unfold updateStats. cbn [currentStreak Result.percentage].
  by rewrite ge_Int.
Qed.

End Statistics.

(** ** Questions from the bundled data *)

Section LocalPool.

Import UseQuiz.

Implicit Types (q : question) (pool filtered questionData : list question).

Lemma same_content_with_id q i : Question.same_content (Question.with_id q i) q.
Proof. by destruct q. Qed.

Lemma pop_nonempty pool :
  pool ≠ [] →
  ∃ q rest, pop pool = (Some q, rest) ∧ pool = rest ++ [q].
Proof.
  intros Hne. destruct (exists_last Hne) as (rest & q & ->).
  exists q, rest. unfold pop. by rewrite last_snoc, removelast_last.
Qed.

(** The loop adds one question per iteration until [amount] are there:
    with enough fuel it stops on its condition.  The questions it adds are
    numbered on from the length reached so far, and each one is a question
    of the filtered data under a new id. *)
Lemma refill_spec fuel filtered amount questionData pool g :
  filtered ≠ [] →
  pool ⊆ filtered →
  Z.of_nat (length questionData) ≤ amount →
  (Z.to_nat amount - length questionData ≤ fuel)%nat →
  ∃ added,
    (refill fuel filtered amount questionData pool g).1 = questionData ++ added
    ∧ Z.of_nat (length (questionData ++ added)) = amount
    ∧ Question.id <$> added
      = Z.of_nat <$> seq (length questionData + 1) (length added)
    ∧ Forall (from_pool filtered) added.
Proof.
  intros Hne. revert questionData pool g.
  induction fuel as [|fuel IH]; intros questionData pool g Hpool Hle Hfuel.
  - exists []. rewrite app_nil_r. cbn. split_and!; [done | lia | done | done].
  - cbn [refill].
    destruct (Z.ltb_spec (Z.of_nat (length questionData)) amount) as [Hlt|Hge].
    + set (next := match pool with
                   | [] => shuffleQuestions filtered g
                   | _ => (pool, g)
                   end).
      assert (next.1 ≠ [] ∧ next.1 ⊆ filtered) as [Hnext Hsub].
      { unfold next. destruct pool as [|q0 pool0]; cbn [fst].
        - pose proof (shuffleQuestions_Permutation filtered g) as Hp. split.
          + intros Hnil. rewrite Hnil in Hp.
            by apply Permutation_nil_l in Hp.
          + by rewrite Hp.
        - done. }
      destruct next as [pool1 g1]. cbn [fst] in Hnext, Hsub.
      destruct (pop_nonempty pool1 Hnext) as (q & rest & -> & Hpool1).
      set (i := Z.of_nat (length questionData) + 1).
      destruct (IH (questionData ++ [Question.with_id q i]) rest g1)
        as (added & Hrun & Hlen & Hids & Hfrom).
      * intros x Hx. apply Hsub. rewrite Hpool1. set_solver.
      * rewrite length_app. cbn. lia.
      * rewrite length_app. cbn. lia.
      * exists (Question.with_id q i :: added).
        rewrite Hrun, <- !app_assoc. cbn [app]. split_and!.
        -- done.
        -- rewrite <- Hlen, <- app_assoc. done.
        -- cbn [fmap list_fmap length seq]. f_equal.
           ++ unfold i. cbn. lia.
           ++ change (list_fmap _ _ ?f ?l) with (f <$> l).
              rewrite Hids, length_app. cbn [length].
              by rewrite Nat.add_1_r, <- Nat.add_succ_l, Nat.add_1_r.
        -- constructor; [|done]. exists q. split.
           ++ apply Hsub. rewrite Hpool1. set_solver.
           ++ apply same_content_with_id.
    + exists []. rewrite app_nil_r. cbn. split_and!; [done | lia | done | done].
Qed.

(** C7.  When the filtered data has at least one question and fewer than
    [amount], the local path returns exactly [amount] questions, their
    ids are 1, 2, ..., [amount] in this order (so they are distinct), and
    each one is a question of the filtered data under its new id. *)
Theorem localQuestions_repeats (difficulty : option string) (amount : Z)
    (data : list question) (g : random) :
  let filtered := filteredQuestions difficulty data in
  (0 < length filtered)%nat →
  Z.of_nat (length filtered) < amount →
  let questionData := (localQuestions difficulty amount data g).1 in
  Z.of_nat (length questionData) = amount
  ∧ Question.id <$> questionData = Z.of_nat <$> seq 1 (Z.to_nat amount)
  ∧ NoDup (Question.id <$> questionData)
  ∧ Forall (from_pool filtered) questionData.
Proof.
  intros filtered Hpos Hless. unfold localQuestions. fold filtered.
  pose proof (shuffleQuestions_Permutation filtered g) as Hperm.
  destruct (shuffleQuestions filtered g) as [shuffled g1]. cbn [fst] in Hperm.
  assert (length shuffled = length filtered) as Hlen by by rewrite Hperm.
  rewrite Hlen.
  destruct (Z.leb_spec amount (Z.of_nat (length filtered))) as [?|_]; [lia|].
  destruct (Nat.ltb_spec 0 (length filtered)) as [_|?]; [|lia].
  destruct (refill_spec (Z.to_nat amount) filtered amount [] shuffled g1)
    as (added & Hrun & Hcount & Hids & Hfrom).
  - intros ->. cbn in Hpos. lia.
  - by rewrite Hperm.
  - cbn. lia.
  - cbn. lia.
  - cbn [app length Nat.add] in Hrun, Hcount, Hids.
    cbv zeta. rewrite Hrun.
    assert (length added = Z.to_nat amount) as Hadded by lia.
    rewrite Hadded in Hids. split_and!; [done | done | | done].
    rewrite Hids. apply NoDup_fmap_2; [apply _ | apply NoDup_seq].
Qed.

Lemma localQuestions_repeats_witness :
  let questionData :=
    (localQuestions None 5 LocalSession.data (Random (λ n, n) 0)).1 in
  length questionData = 5%nat
  ∧ Question.id <$> questionData = [1; 2; 3; 4; 5]
  ∧ Forall (from_pool (filteredQuestions None LocalSession.data)) questionData.
Proof.
  destruct (localQuestions_repeats None 5 LocalSession.data
              (Random (λ n, n) 0)) as (Hlen & Hids & _ & Hfrom).
  - vm_compute. lia.
  - vm_compute. reflexivity.
  - cbv zeta. split_and!; [lia | exact Hids | exact Hfrom].
Defined.

End LocalPool.

(** ** Retrying a rate-limited fetch *)

Section Retry.

Variable decode : string → string.
Variable responses : nat → Api.response.
Variable maxRetries : nat.
Variable g : random.

(** A failed fetch has drawn no random number. *)
Lemma fetchQuestionsFromAPI_Throw r message g' :
  Api.fetchQuestionsFromAPI decode r g = (Throw message, g') → g' = g.
Proof.
  unfold Api.fetchQuestionsFromAPI.
  destruct r as [m|st|code results]; [congruence | congruence |].
  destruct (Api.code_error code); [congruence|].
  destruct (Api.formattedQuestions decode 0 results g) as [fq g1].
  destruct (shuffleArray fq g1). congruence.
Qed.

Lemma retry_loop_run (count remaining attempt : nat) lastError c g' :
  (1 ≤ count ≤ remaining)%nat →
  (remaining + attempt = maxRetries + 1)%nat →
  (∀ i, (attempt ≤ i < attempt + count - 1)%nat →
        rate_limited_at decode responses g i) →
  Api.fetchQuestionsFromAPI decode (responses (attempt + count - 1)%nat) g
    = (c, g') →
  ends_run c (count = remaining) →
  Api.retry_loop decode responses maxRetries remaining attempt lastError g
  = (retry_log count attempt, c, g').
Proof.
  revert remaining attempt lastError.
  induction count as [|count IH]; intros remaining attempt lastError
    Hcount Hrem Hfail Hlast Hends; [lia|].
  destruct remaining as [|remaining]; [lia|].
  cbn [Api.retry_loop retry_log].
  destruct count as [|count].
  - (* the attempt that ends the run *)
    replace (attempt + 1 - 1)%nat with attempt in Hlast by lia.
    rewrite Hlast. cbn [retry_log].
    change (0 <? 0)%nat with false. cbv iota. rewrite !app_nil_r.
    destruct c as [questions|message|]; [done| |done].
    destruct Hends as [Hother | Hexhausted].
    + by rewrite Hother.
    + destruct (Api.is_rate_limit message); [|done].
      assert (remaining = 0%nat) as -> by lia.
      destruct (Nat.ltb_spec attempt maxRetries) as [?|_]; [lia|].
      cbn [Api.retry_loop]. rewrite !app_nil_r. done.
  - (* a rate-limited attempt, followed by another one *)
    destruct (Hfail attempt) as (message & Hthis & Hrate); [lia|].
    rewrite Hthis, Hrate.
    destruct (Nat.ltb_spec attempt maxRetries) as [_|?]; [|lia].
    rewrite (IH remaining (S attempt) (Some message)); [done|lia|lia| | |].
    + intros i Hi. apply Hfail. lia.
    + rewrite <- Hlast. do 3 f_equal. lia.
    + destruct c; cbn in *; [done | | done].
      destruct Hends as [?|?]; [by left | right; lia].
Qed.

(** The loop in terms of its own test.  Suppose the attempts before
    attempt [k] fail with an error that passes the test of the [catch]
    block, and attempt [k] ends the run: it succeeds, or it fails with an
    error that does not pass the test, or it is the last attempt allowed.
    Then [fetchQuestionsWithRetry] makes the attempts 1 to [k] and no
    other, waits 10000 ms after each failed one and then
    [attempt * 3000] ms before the next attempt, and ends as attempt [k]
    ended: with its questions or with its error. *)
Lemma fetchQuestionsWithRetry_policy (k : nat) c g' :
  (1 ≤ k ≤ maxRetries)%nat →
  (∀ i, (1 ≤ i < k)%nat → rate_limited_at decode responses g i) →
  Api.fetchQuestionsFromAPI decode (responses k) g = (c, g') →
  ends_run c (k = maxRetries) →
  Api.fetchQuestionsWithRetry decode responses maxRetries g
  = (retry_log k 1, c, g').
Proof.
  intros Hk Hfail Hlast Hends. unfold Api.fetchQuestionsWithRetry.
  apply retry_loop_run; [lia | lia | | | done].
  - intros i Hi. apply Hfail. lia.
  - rewrite <- Hlast. do 3 f_equal. lia.
Qed.

End Retry.

(** The messages that [fetchQuestionsFromAPI] throws for the provider's
    two rate-limit signals pass the test; those for "no results", "invalid
    parameter" and a network failure do not. *)
Lemma is_rate_limit_messages :
  Api.is_rate_limit (Api.rethrown (Api.status_error 429)) = true
  ∧ (∀ m, Api.code_error 5 = Some m → Api.is_rate_limit (Api.rethrown m) = true)
  ∧ Api.is_rate_limit Api.no_results_message = false
  ∧ Api.is_rate_limit Api.invalid_parameter_message = false
  ∧ Api.is_rate_limit Api.network_message = false.
Proof. split_and!; try reflexivity. by intros m [= <-]. Qed.

Lemma fetchQuestionsWithRetry_policy_witness :
  let decode (s : string) := s in
  let g := Random (λ _, 0%nat) 0 in
  (* two rate-limited attempts, then a success, three attempts allowed *)
  (∃ questions g',
      Api.fetchQuestionsWithRetry decode (RateLimitedProvider.responses 2) 3 g
      = ([Api.Attempt 1; Api.Delay 10000; Api.Delay 6000; Api.Attempt 2;
          Api.Delay 10000; Api.Delay 9000; Api.Attempt 3],
         Return questions, g')
      ∧ length questions = 1%nat)
  (* a fourth attempt would be needed *)
  ∧ Api.fetchQuestionsWithRetry decode (RateLimitedProvider.responses 3) 3 g
    = ([Api.Attempt 1; Api.Delay 10000; Api.Delay 6000; Api.Attempt 2;
        Api.Delay 10000; Api.Delay 9000; Api.Attempt 3],
       Throw Api.rate_limit_message, g).
Proof.
  intros decode g. split.
  - eexists _, _. split.
    + apply (fetchQuestionsWithRetry_policy decode
               (RateLimitedProvider.responses 2) 3 g 3).
      * lia.
      * intros i Hi. exists Api.rate_limit_message.
        assert (i = 1 ∨ i = 2)%nat as [-> | ->] by lia; by vm_compute.
      * vm_compute. reflexivity.
      * exact I.
    + reflexivity.
  - apply (fetchQuestionsWithRetry_policy decode
             (RateLimitedProvider.responses 3) 3 g 3).
    + lia.
    + intros i Hi. exists Api.rate_limit_message.
      assert (i = 1 ∨ i = 2)%nat as [-> | ->] by lia; by vm_compute.
    + vm_compute. reflexivity.
    + right. reflexivity.
Defined.


(** ** The rate limiter *)

Section RateLimiter.

Import Api.

Implicit Types (n : network) (schedule : list step).

(** C6, at three overlapping calls.  The first call sends at once, at
    1000000.  The calls made 1000 ms and 2000 ms later both read the same
    [lastRequestTime] and both wait until 1005000, where both send: two
    requests leave at the same time. *)
Theorem rateLimitedFetch_overlapping_calls :
  let final := run OverlappingCalls.schedule OverlappingCalls.start in
  sent final = [1000000; 1005000; 1005000]
  ∧ ¬ spaced MIN_REQUEST_INTERVAL (sent final).
Proof.
  cbv zeta. split; [reflexivity|].
  vm_compute. intros (_ & H & _). by apply H.
Qed.

Lemma spaced_snoc interval times t :
  spaced interval times →
  Forall (λ u, u + interval ≤ t) times →
  spaced interval (times ++ [t]).
Proof.
  induction times as [|u times IH]; intros Hs Hle; [done|].
  cbn [spaced app] in *. destruct Hs as [Hu Hs].
  apply Forall_cons in Hle as [Hut Hle]. split; [|by apply IH].
  destruct times; cbn [app]; [done | exact Hu].
Qed.

Lemma send_settled n :
  spaced MIN_REQUEST_INTERVAL (sent n) →
  Forall (λ t, t ≤ lastRequestTime n) (sent n) →
  lastRequestTime n + MIN_REQUEST_INTERVAL ≤ clock n →
  sleeping n = [] →
  settled (send n).
Proof.
  intros Hs Hle Hlate Hnone. unfold settled, send. cbn. split_and!.
  - apply spaced_snoc; [done|]. eapply Forall_impl; [exact Hle|].
    intros u Hu. cbn in Hu. lia.
  - apply Forall_app. split; [|by repeat constructor].
    eapply Forall_impl; [exact Hle|]. intros u Hu. cbn in Hu.
    unfold MIN_REQUEST_INTERVAL in Hlate. lia.
  - by left.
Qed.

Lemma rateLimitedFetch_settled n :
  settled n → sleeping n = [] → settled (rateLimitedFetch n).
Proof.
  intros (Hs & Hle & _) Hnone. unfold rateLimitedFetch.
  destruct (Z.ltb_spec (clock n - lastRequestTime n) MIN_REQUEST_INTERVAL).
  - unfold settled. cbn. rewrite Hnone. split_and!; [done | done |].
    right. split; [cbn [app]; f_equal|]; lia.
  - apply send_settled; [done | done | lia | done].
Qed.

Lemma elapse_settled ms n : settled n → settled (elapse ms n).
Proof.
  intros (Hs & Hle & [Hnone | [Hone Hearly]]); unfold elapse.
  - rewrite Hnone. cbn. unfold settled. cbn. rewrite Hnone. auto.
  - rewrite Hone. cbn [length wake]. rewrite Hone. cbn [earliest].
    destruct (Z.leb_spec (lastRequestTime n + MIN_REQUEST_INTERVAL)
                         (clock n + Z.of_N ms)) as [Hdue|Hnot].
    + cbn [cancel]. rewrite Z.eqb_refl.
      match goal with
      | |- context [send ?m] =>
          destruct (send_settled m) as (Hs' & Hle' & _); cbn; try done; try lia
      end.
      unfold settled. cbn. auto.
    + unfold settled. cbn. rewrite Hone. split_and!; [done | done |].
      right. split; [done | lia].
Qed.

Lemma run_settled schedule n :
  settled n → one_at_a_time schedule n → settled (run schedule n).
Proof.
  revert n. induction schedule as [|e schedule IH]; intros n Hn Hone; [done|].
  cbn in Hone. destruct Hone as [He Hrest].
  change (run (e :: schedule) n) with (run schedule (run_step e n)).
  apply IH; [|done]. destruct e; cbn.
  - by apply rateLimitedFetch_settled.
  - by apply elapse_settled.
Qed.

(** As long as no call is made while another one is suspended, every
    request leaves at least 5000 ms after the one before it. *)
Lemma run_one_at_a_time_spaced schedule (now : Z) :
  one_at_a_time schedule (Network now 0 [] []) →
  spaced MIN_REQUEST_INTERVAL (sent (run schedule (Network now 0 [] []))).
Proof.
  intros Hone. apply run_settled; [|done].
  unfold settled. cbn. auto.
Qed.

(** A call made sooner than 5000 ms after the last request sends nothing
    when it is made: it sets a timer for the end of the interval. *)
Lemma rateLimitedFetch_too_soon n :
  clock n - lastRequestTime n < MIN_REQUEST_INTERVAL →
  sent (rateLimitedFetch n) = sent n
  ∧ sleeping (rateLimitedFetch n)
    = sleeping n ++ [lastRequestTime n + MIN_REQUEST_INTERVAL].
Proof.
  intros Hsoon. unfold rateLimitedFetch.
  destruct (Z.ltb_spec (clock n - lastRequestTime n) MIN_REQUEST_INTERVAL);
    [|lia].
  cbn. split; [done|]. do 2 f_equal. lia.
Qed.

End RateLimiter.

(** ** Loading questions when the provider fails *)

Section Fallback.

Import UseQuiz.

Variable decode : string → string.

(** When the remote path throws or returns no question, the hook stores
    the first [amount] questions of the shuffled bundled data (without the
    difficulty filter) together with the offline notice in [error],
    whether or not there is any such question. *)
Lemma loadQuestions_fallback o data responses g st log c g1 :
  useAPI o = true →
  Api.fetchQuestionsWithRetry decode responses 2 g = (log, c, g1) →
  (c = Return [] ∨ ∃ message, c = Throw message) →
  let st' := (loadQuestions decode o data responses g st).1 in
  questions st' = JS.slice0 (shuffleQuestions data g1).1 (amount o)
  ∧ error st' = Some offline_notice
  ∧ isLoading st' = false.
Proof.
  intros Hapi Hfetch Hc. unfold loadQuestions. rewrite Hapi, Hfetch.
  assert (∀ message, (failed o data message g1 st).1
            = State (JS.slice0 (shuffleQuestions data g1).1 (amount o))
                    (currentQuestionIndex st) (selectedAnswers st) false
                    (Some offline_notice) (quizCompleted st) (score st)
                    (timeRemaining st) (timerActive st) (startTime st)
                    (endTime st)) as Hfailed.
  { intros message. unfold failed. rewrite Hapi.
    by destruct (shuffleQuestions data g1). }
  destruct Hc as [-> | [message ->]]; cbn [length Nat.eqb];
    cbv zeta; rewrite Hfailed; done.
Qed.

(** The page shows its error screen for every state with a non-empty
    [error], whatever questions the state holds. *)
Lemma render_error quizStarted st message :
  isLoading st = false → error st = Some message → message ≠ "" →
  QuizPage.render quizStarted st = QuizPage.ErrorScreen message.
Proof.
  intros Hl He Hm. unfold QuizPage.render, QuizPage.truthy. rewrite Hl, He.
  by rewrite bool_decide_eq_false_2.
Qed.

End Fallback.

(** C4, with the network down.  The hook falls back to the bundled data:
    it holds one of its questions.  But the notice is stored in [error],
    and the page shows its error screen for it instead of the start
    screen; with an empty data set the hook ends in the same way, with the
    same notice and no question. *)
Theorem loadQuestions_offline_fallback_is_shown_as_error :
  let st := OfflineSession.loaded LocalSession.data in
  let st0 := OfflineSession.loaded [] in
  (∃ q, UseQuiz.questions st = [q] ∧ LocalSession.data !! 1%nat = Some q)
  ∧ UseQuiz.error st = Some UseQuiz.offline_notice
  ∧ QuizPage.render false st = QuizPage.ErrorScreen UseQuiz.offline_notice
  ∧ UseQuiz.questions st0 = []
  ∧ UseQuiz.error st0 = Some UseQuiz.offline_notice.
Proof.
  cbv zeta. split_and!; try reflexivity.
  eexists. split; reflexivity.
Qed.

(** ** Answering, moving and the countdown *)

Section SessionActions.

Import UseQuiz Session.

Implicit Types (st : state) (o : options) (a : action) (q : question).

(** X1.  A new selection replaces the earlier one: selecting [a] and then
    [b] leaves the session as selecting [b] alone does. *)
Theorem selectAnswer_last_wins (a b : JS.value) st :
  selectAnswer b (selectAnswer a st) = selectAnswer b st.
Proof.
  destruct st as [qs idx answers ? ? completed ? ? ? ? ?].
  unfold selectAnswer. cbn.
  destruct completed eqn:Hc; cbn; [by rewrite ?Hc|].
  destruct (idx <? 0) eqn:Hneg; cbn; [by rewrite ?Hneg|].
  destruct (qs !! Z.to_nat idx) as [q|] eqn:Hq; cbn.
  - rewrite Hneg, Hq. by rewrite insert_insert_eq.
  - by rewrite Hneg, Hq.
Qed.

(** X2.  On a session that is not completed, [selectAnswer] records the
    option under the id of the current question and nowhere else, keeps
    the questions and the position, and makes [hasSelectedAnswer] true. *)
Theorem selectAnswer_records (i : nat) st q :
  quizCompleted st = false →
  currentQuestion st = Some q →
  let st' := selectAnswer (JS.index i) st in
  selectedAnswers st' !! Question.id q = Some (JS.index i)
  ∧ (∀ id, id ≠ Question.id q →
           selectedAnswers st' !! id = selectedAnswers st !! id)
  ∧ questions st' = questions st
  ∧ currentQuestionIndex st' = currentQuestionIndex st
  ∧ hasSelectedAnswer st' = true.
Proof.
  intros Hc Hq. unfold currentQuestion in Hq.
  destruct (currentQuestionIndex st <? 0) eqn:Hneg; [done|].
  assert (selectAnswer (JS.index i) st
          = State (questions st) (currentQuestionIndex st)
                  (<[Question.id q := JS.index i]> (selectedAnswers st))
                  (isLoading st) (error st) (quizCompleted st) (score st)
                  (timeRemaining st) (timerActive st) (startTime st)
                  (endTime st)) as ->.
  { unfold selectAnswer. by rewrite Hc, Hneg, Hq. }
  cbn. split_and!; try done.
  - apply lookup_insert_eq.
  - intros id Hid. by apply lookup_insert_ne.
  - unfold hasSelectedAnswer, currentQuestion. cbn. rewrite Hneg, Hq.
    unfold answer_of. by rewrite lookup_insert_eq.
Qed.

Lemma selectAnswer_records_witness :
  selectedAnswers (selectAnswer (JS.index 3) LocalSession.answered) !! 2
  = Some (JS.index 3).
Proof.
  refine (proj1 (selectAnswer_records 3 LocalSession.answered
                   (Question.Make 2 "History" "easy"
                      "Who was the first US president?"
                      ["Lincoln"; "Washington"; "Adams"; "Jefferson"]
                      (JS.index 1) "Washington.") _ _)); reflexivity.
Defined.

(** A direct call is a call from the render of the state it acts on. *)
Lemma direct_calls o (ended returned : Z) (answerIndex : JS.value) st :
  selectAnswer_from st answerIndex st = selectAnswer answerIndex st
  ∧ nextQuestion_from o st ended returned st
    = nextQuestion o ended returned st
  ∧ previousQuestion_from o st st = previousQuestion o st
  ∧ finishQuiz_from st ended returned st = finishQuiz ended returned st.
Proof. split_and!; reflexivity. Qed.







(** A call from a render of a completed session in which the score is
    the count of the right answers, on a state of the same kind. *)
Lemma act_from_completed o (captured : state) a st :
  quizCompleted captured = true →
  questions captured = questions st →
  selectedAnswers captured = selectedAnswers st →
  quizCompleted st = true →
  score st
  = count_correct (map (outcome_of (selectedAnswers st)) (questions st)) →
  quizCompleted (act_from o captured a st) = true
  ∧ questions (act_from o captured a st) = questions st
  ∧ selectedAnswers (act_from o captured a st) = selectedAnswers st
  ∧ score (act_from o captured a st) = score st.
Proof.
  intros Hcc Hcq Hca Hc Hs. destruct a; cbn [act_from]; try done.
  - unfold selectAnswer_from. by rewrite Hcc.
  - unfold nextQuestion_from. destruct (_ <? _); cbn; [done|].
    by rewrite Hcq, Hca, <- Hs.
  - unfold previousQuestion_from. by destruct (_ <? _).
  - unfold nextQuestion_from. destruct (_ <? _); cbn; [done|].
    by rewrite Hcq, Hca, <- Hs.
  - cbn. by rewrite Hcq, Hca, <- Hs.
Qed.

(** X4.  After a direct call of [finishQuiz], no action that is called
    from a later render (any number of actions from each of them) changes
    what was scored: the session stays completed with the same questions,
    answers and score, and [quizResults] keeps showing the score, total,
    percentage and per-question outcomes that [finishQuiz] returned.
    Calls from a render before the [finishQuiz], such as the callback of
    [handleTimeUp], are not among them. *)
Theorem renders_after_finishQuiz o (ls : list (list action)) st
    (ended returned : Z) :
  let finished := finishQuiz ended returned st in
  let st' := renders o ls finished.2 in
  quizCompleted st' = true
  ∧ questions st' = questions st
  ∧ selectedAnswers st' = selectedAnswers st
  ∧ score st' = Result.score finished.1
  ∧ Result.score <$> quizResults st' = Some (Result.score finished.1)
  ∧ Result.total <$> quizResults st' = Some (Result.total finished.1)
  ∧ Result.percentage <$> quizResults st' = Some (Result.percentage finished.1)
  ∧ Result.results <$> quizResults st' = Some (Result.results finished.1).
Proof.
  cbv zeta.
  assert (∀ (l : list action) (captured st1 : state),
            quizCompleted captured = true →
            questions captured = questions st1 →
            selectedAnswers captured = selectedAnswers st1 →
            quizCompleted st1 = true →
            score st1
            = count_correct
                (map (outcome_of (selectedAnswers st1)) (questions st1)) →
            let st2 := foldl (λ s a, act_from o captured a s) st1 l in
            quizCompleted st2 = true
            ∧ questions st2 = questions st1
            ∧ selectedAnswers st2 = selectedAnswers st1
            ∧ score st2 = score st1) as Hrender.
  { induction l as [|a l IH]; intros captured st1 Hcc Hcq Hca Hc Hs;
      [done|].
    cbn [foldl].
    destruct (act_from_completed o captured a st1 Hcc Hcq Hca Hc Hs)
      as (Hc' & Hq' & Ha' & Hs').
    destruct (IH captured (act_from o captured a st1)) as (? & ? & ? & ?);
      [done | congruence | congruence | done | by rewrite Hs', Ha', Hq' |].
    cbv zeta. split_and!; congruence. }
  assert (∀ st1,
            quizCompleted st1 = true →
            score st1
            = count_correct
                (map (outcome_of (selectedAnswers st1)) (questions st1)) →
            quizCompleted (renders o ls st1) = true
            ∧ questions (renders o ls st1) = questions st1
            ∧ selectedAnswers (renders o ls st1) = selectedAnswers st1
            ∧ score (renders o ls st1) = score st1) as Hall.
  { induction ls as [|l ls IH]; intros st1 Hc Hs; [done|].
    change (renders o (l :: ls) st1) with (renders o ls (in_render o l st1)).
    destruct (Hrender l st1 st1 Hc eq_refl eq_refl Hc Hs)
      as (Hc' & Hq' & Ha' & Hs').
    fold (in_render o l st1) in Hc', Hq', Ha', Hs'.
    destruct (IH (in_render o l st1)) as (? & ? & ? & ?);
      [done | by rewrite Hs', Ha', Hq' |].
    split_and!; congruence. }
  destruct (Hall (finishQuiz ended returned st).2) as (Hc & Hq & Ha & Hs);
    [done | done |].
  cbn in Hq, Ha, Hs. unfold quizResults. rewrite Hc. cbn.
  rewrite Hq, Ha, Hs. done.
Qed.

(** X5.  The page's [handleNext], which tests [isLastQuestion] before it
    chooses between [finishQuiz] and [nextQuestion], does what
    [nextQuestion] alone does, on every state; and on a session without
    questions [isLastQuestion] is false although [nextQuestion] completes
    the session. *)
Theorem handleNext_is_nextQuestion o (ended returned : Z) st :
  handleNext o ended returned st = nextQuestion o ended returned st
  ∧ isLastQuestion (initial o) = false
  ∧ quizCompleted (nextQuestion o ended returned (initial o)) = true.
Proof.
  split_and!; [|done|done].
  unfold handleNext, isLastQuestion, nextQuestion.
  destruct (Z.eqb_spec (currentQuestionIndex st)
                       (Z.of_nat (length (questions st)) - 1)) as [He|Hne];
    [|done].
  destruct (Z.ltb_spec (currentQuestionIndex st)
                       (Z.of_nat (length (questions st)) - 1)); [lia|done].
Qed.

End SessionActions.

Section Countdown.

Import UseQuiz Session.

Implicit Types (st : state) (o : options).

(** X6.  On a session whose position is on one of its questions,
    [progress] is a finite number that is greater than 0 and at most 100,
    and it is 100 exactly on the last question. *)
Theorem progress_bounds st :
  0 ≤ currentQuestionIndex st < Z.of_nat (length (questions st)) →
  ∃ q : Q,
    progress st = JS.Fin q
    ∧ (0 < q)%Q ∧ (q <= 100)%Q
    ∧ ((q == 100)%Q ↔ isLastQuestion st = true).
Proof.
  intros [Hlo Hhi]. unfold progress, isLastQuestion.
  set (i := currentQuestionIndex st) in *.
  set (n := Z.of_nat (length (questions st))) in *.
  destruct (Nat.ltb_spec 0 (length (questions st))) as [_|?]; [|lia].
  unfold JS.div, JS.mul, JS.Int.
  assert (¬ inject_Z n == 0)%Q as Hnz.
  { intros H. apply (proj1 (inject_Z_injective _ 0)) in H. lia. }
  destruct (Qeq_bool (inject_Z n) 0) eqn:E.
  { by apply Qeq_bool_iff in E. }
  eexists. split; [reflexivity|].
  assert (Qred (Qred (inject_Z (i + 1) / inject_Z n) * inject_Z 100)
          == inject_Z (100 * (i + 1)) / inject_Z n)%Q as Hq.
  { rewrite !Qred_correct, inject_Z_mult. field. exact Hnz. }
  assert (0 < inject_Z n)%Q as Hnpos.
  { change 0%Q with (inject_Z 0). rewrite <- Zlt_Qlt. lia. }
  rewrite Hq. split_and!.
  - apply Qlt_shift_div_l; [done|]. rewrite Qmult_0_l.
    change 0%Q with (inject_Z 0). rewrite <- Zlt_Qlt. lia.
  - apply Qle_shift_div_r; [done|].
    change 100%Q with (inject_Z 100). rewrite <- inject_Z_mult, <- Zle_Qle.
    lia.
  - split.
    + intros H. apply Z.eqb_eq.
      assert (inject_Z (100 * (i + 1)) == 100 * inject_Z n)%Q as H'.
      { rewrite <- H. field. exact Hnz. }
      change 100%Q with (inject_Z 100) in H'.
      rewrite <- inject_Z_mult in H'.
      apply (proj1 (inject_Z_injective _ _)) in H'. lia.
    + intros H. apply Z.eqb_eq in H.
      replace (i + 1) with n by lia. rewrite inject_Z_mult.
      change (inject_Z 100) with 100%Q. field. exact Hnz.
Qed.

Lemma progress_bounds_witness :
  ∃ q : Q, progress LocalSession.answered = JS.Fin q ∧ (q == 100)%Q.
Proof.
  destruct (progress_bounds LocalSession.answered) as (q & Hq & _ & _ & Hl).
  - vm_compute. split; [discriminate | reflexivity].
  - exists q. split; [exact Hq | by apply Hl].
Defined.

Lemma second_running o (ended returned : Z) st :
  timerActive st = true → 0 < timeRemaining st →
  second o ended returned st = tick st.
Proof.
  intros Ha Hpos. unfold second, timer_effect. rewrite Ha.
  by destruct (Z.ltb_spec 0 (timeRemaining st)); [|lia].
Qed.

(** X7.  A running countdown that is left alone loses one second per
    second until it is at 0.  Let [st'] be the state that the [n]-th tick
    commits, [n] being at most the start value: its [timeRemaining] is the
    start value minus [n] and nothing else in the session has changed.
    The timer effect of that render sets the timeout of the next tick as
    long as [n] is less than the start value; when [n] is the start value
    it calls [handleTimeUp], which stops the timer. *)
Theorem countdown o (ended returned : Z) st (n : nat) :
  timerActive st = true →
  Z.of_nat n ≤ timeRemaining st →
  let st' := Nat.iter n (second o ended returned) st in
  timeRemaining st' = timeRemaining st - Z.of_nat n
  ∧ st' = State (questions st) (currentQuestionIndex st) (selectedAnswers st)
                (isLoading st) (error st) (quizCompleted st) (score st)
                (timeRemaining st') (timerActive st) (startTime st)
                (endTime st)
  ∧ (timer_effect st' = Tick ↔ Z.of_nat n < timeRemaining st)
  ∧ (timer_effect st' = TimeUp ↔ Z.of_nat n = timeRemaining st)
  ∧ timerActive (after_effect st')
    = bool_decide (Z.of_nat n < timeRemaining st)
  ∧ timeRemaining (after_effect st') = timeRemaining st - Z.of_nat n.
Proof.
  intros Ha Hn. cbv zeta.
  assert (timeRemaining (Nat.iter n (second o ended returned) st)
            = timeRemaining st - Z.of_nat n
          ∧ Nat.iter n (second o ended returned) st
            = State (questions st) (currentQuestionIndex st)
                    (selectedAnswers st) (isLoading st) (error st)
                    (quizCompleted st) (score st)
                    (timeRemaining
                       (Nat.iter n (second o ended returned) st))
                    (timerActive st) (startTime st) (endTime st))
    as [Ht Hst].
  { induction n as [|n IH].
    - change (Nat.iter 0 (second o ended returned) st) with st.
      split; [lia | by destruct st].
    - destruct IH as [IHt IHs]; [lia|].
      change (Nat.iter (S n) (second o ended returned) st)
        with (second o ended returned
                (Nat.iter n (second o ended returned) st)).
      set (prev := Nat.iter n (second o ended returned) st) in *.
      assert (timerActive prev = true) as Hap by by rewrite IHs.
      rewrite second_running by (done || lia). cbn. split; [lia|].
      rewrite IHs at 1. reflexivity. }
  set (st' := Nat.iter n (second o ended returned) st) in *.
  assert (timerActive st' = true) as Ha' by by rewrite Hst.
  assert (timer_effect st'
          = if bool_decide (Z.of_nat n < timeRemaining st) then Tick
            else TimeUp) as He.
  { unfold timer_effect. rewrite Ha', Ht. cbn [andb].
    destruct (Z.ltb_spec 0 (timeRemaining st - Z.of_nat n)).
    - by rewrite bool_decide_eq_true_2 by lia.
    - rewrite bool_decide_eq_false_2 by lia.
      destruct (Z.eqb_spec (timeRemaining st - Z.of_nat n) 0); [done|lia]. }
  split_and!; [done | done | | | |].
  - rewrite He. case_bool_decide; split; (done || lia).
  - rewrite He. case_bool_decide; split; (done || lia).
  - unfold after_effect. rewrite He. by case_bool_decide.
  - unfold after_effect. rewrite He. by case_bool_decide.
Qed.

Lemma countdown_witness :
  let seconds (n : nat) :=
    Nat.iter n (second LocalSession.options 0 0) LocalSession.answered in
  timeRemaining (seconds 12%nat) = 18
  ∧ timerActive (after_effect (seconds 12%nat)) = true
  ∧ timer_effect (seconds 30%nat) = TimeUp
  ∧ timerActive (after_effect (seconds 30%nat)) = false.
Proof.
  intros seconds.
  destruct (countdown LocalSession.options 0 0 LocalSession.answered 12)
    as (H12 & _ & _ & _ & H12' & _); [reflexivity | vm_compute; discriminate |].
  destruct (countdown LocalSession.options 0 0 LocalSession.answered 30)
    as (_ & _ & _ & H30 & H30' & _); [reflexivity | vm_compute; discriminate |].
  split_and!.
  - unfold seconds. rewrite H12. reflexivity.
  - unfold seconds. rewrite H12'. reflexivity.
  - apply H30. reflexivity.
  - unfold seconds. rewrite H30'. reflexivity.
Defined.

(** X8.  When the countdown has reached 0 and nothing else happens
    during the one-second delay of [handleTimeUp], the time-up leaves the
    session exactly as a click on Next does: on the last question it
    finishes the quiz as [finishQuiz] does, and otherwise it moves on with
    the full time and the timer running. *)
Theorem timeUp_is_nextQuestion o st (ended returned : Z) :
  timer_effect st = TimeUp →
  afterTimeUp o st ended returned (handleTimeUp st)
  = nextQuestion o ended returned st.
Proof.
  unfold timer_effect. intros He.
  assert (timerActive st = true) as Ha.
  { destruct (timerActive st); [done|]. cbn in He.
    by rewrite andb_false_r in He. }
  unfold afterTimeUp, nextQuestion, handleTimeUp, finishQuiz_from. cbn.
  destruct (_ <? _); cbn; by rewrite ?Ha.
Qed.

Lemma timeUp_is_nextQuestion_witness :
  quizCompleted
    (afterTimeUp LocalSession.options TimedOutSession.at_zero 31000 31000
                 (handleTimeUp TimedOutSession.at_zero)) = true.
Proof.
  rewrite (timeUp_is_nextQuestion LocalSession.options
             TimedOutSession.at_zero 31000 31000); reflexivity.
Defined.

(** X9.  An answer that is selected during the one-second delay of
    [handleTimeUp] on the last question is recorded but not scored: the
    delayed callback scores the answers of the render in which the
    countdown reached 0.  So if the current question was unanswered and
    the user then selects its right option, the session ends with the
    score that [finishQuiz] would have given without that answer, while
    [quizResults] lists the question as answered correctly. *)
Theorem late_answer_is_not_scored o st q (k : nat) (ended returned : Z) :
  timer_effect st = TimeUp →
  quizCompleted st = false →
  currentQuestion st = Some q →
  isLastQuestion st = true →
  selectedAnswers st !! Question.id q = None →
  Question.correctAnswer q = JS.index k →
  let late := selectAnswer (JS.index k) (handleTimeUp st) in
  let st' := afterTimeUp o st ended returned late in
  let position := Z.to_nat (currentQuestionIndex st) in
  score st' = Result.score (finishQuiz ended returned st).1
  ∧ (Result.results (finishQuiz ended returned st).1 !! position
     ≫= λ r, Some (Result.isCorrect r)) = Some false
  ∧ (quizResults st' ≫= λ r, Result.results r !! position
     ≫= λ r, Some (Result.isCorrect r)) = Some true
  ∧ (Result.score <$> quizResults st')
    = Some (Result.score (finishQuiz ended returned st).1).
Proof.
  intros He Hc Hq Hlast Hnone Hk. cbv zeta.
  unfold currentQuestion in Hq.
  destruct (currentQuestionIndex st <? 0) eqn:Hneg; [done|].
  assert (selectAnswer (JS.index k) (handleTimeUp st)
          = State (questions st) (currentQuestionIndex st)
                  (<[Question.id q := JS.index k]> (selectedAnswers st))
                  (isLoading st) (error st) (quizCompleted st) (score st)
                  (timeRemaining st) false (startTime st) (endTime st))
    as ->.
  { unfold selectAnswer, handleTimeUp. cbn. by rewrite Hc, Hneg, Hq. }
  unfold isLastQuestion in Hlast. apply Z.eqb_eq in Hlast.
  unfold afterTimeUp.
  destruct (Z.ltb_spec (currentQuestionIndex st)
                       (Z.of_nat (length (questions st)) - 1)); [lia|].
  cbn. split_and!.
  - done.
  - rewrite list_lookup_fmap, Hq. cbn.
    unfold answer_of. rewrite Hnone, Hk. done.
  - rewrite list_lookup_fmap, Hq. cbn.
    unfold answer_of. rewrite lookup_insert_eq, Hk.
    by rewrite strict_eq_index, bool_decide_eq_true_2.
  - done.
Qed.

Lemma late_answer_is_not_scored_witness :
  let late :=
    selectAnswer (JS.index 1) (handleTimeUp TimedOutSession.at_zero) in
  let st' :=
    afterTimeUp LocalSession.options TimedOutSession.at_zero 32000 32000 late in
  score st' = 1
  ∧ Result.isCorrect <$> (default [] (Result.results <$> quizResults st'))
    = [true; true].
Proof.
  cbv zeta.
  destruct (late_answer_is_not_scored LocalSession.options
              TimedOutSession.at_zero
              (Question.Make 2 "History" "easy"
                 "Who was the first US president?"
                 ["Lincoln"; "Washington"; "Adams"; "Jefferson"]
                 (JS.index 1) "Washington.") 1 32000 32000)
    as (Hscore & _); try reflexivity.
  split; [rewrite Hscore; reflexivity | reflexivity].
Defined.

End Countdown.

(** ** Loading from the bundled data *)

Section LocalLoad.

Import UseQuiz.

Implicit Types (data : list question) (q : question) (g : random)
  (decode : string → string).

Lemma filteredQuestions_elem (difficulty : option string) data q :
  q ∈ filteredQuestions difficulty data →
  ∃ q0, q0 ∈ data ∧ dropped difficulty q0 = false
        ∧ Question.same_content q q0.
Proof.
  unfold filteredQuestions. intros Hq.
  apply elem_of_lookup_imap_1 in Hq as (i & q0 & -> & Hq0).
  apply list_elem_of_lookup_2, list_elem_of_filter in Hq0 as [Hd Hq0].
  exists q0. split_and!; [done | done | apply same_content_with_id].
Qed.

Lemma same_content_difficulty q q0 :
  Question.same_content q q0 → Question.difficulty q = Question.difficulty q0.
Proof.
  unfold Question.same_content. intros H.
  by apply (f_equal Question.difficulty) in H.
Qed.

Lemma localQuestions_from_pool (difficulty : option string) (amount : Z)
    data g :
  Forall (from_pool (filteredQuestions difficulty data))
         (localQuestions difficulty amount data g).1.
Proof.
  unfold localQuestions. set (filtered := filteredQuestions difficulty data).
  pose proof (shuffleQuestions_Permutation filtered g) as Hperm.
  destruct (shuffleQuestions filtered g) as [shuffled g1]. cbn [fst] in Hperm.
  assert (∀ l : list question, l ⊆ filtered → Forall (from_pool filtered) l)
    as Hsub.
  { intros l Hl. apply Forall_forall. intros q Hq. exists q. split; [auto|done]. }
  destruct (Z.leb_spec amount (Z.of_nat (length shuffled))) as [Hle|Hgt].
  - cbn [fst]. apply Hsub. unfold JS.slice0.
    destruct (amount <? 0); intros q Hq%subseteq_take;
      by rewrite <- Hperm.
  - destruct (Nat.ltb_spec 0 (length shuffled)) as [Hpos|Hzero]; [|done].
    destruct (refill_spec (Z.to_nat amount) filtered amount [] shuffled g1)
      as (added & Hrun & _ & _ & Hfrom).
    + intros Hnil. rewrite Hnil in Hperm.
      apply Permutation_nil_r in Hperm. rewrite Hperm in Hpos. cbn in Hpos. lia.
    + by rewrite Hperm.
    + cbn. lia.
    + cbn. lia.
    + by rewrite Hrun.
Qed.

(** X10.  With a difficulty chosen, every question that the local path
    returns, for whatever count is asked, has that difficulty and is one
    of the questions of the bundled data (under the id the path gave
    it). *)
Theorem localQuestions_respects_difficulty (d : string) (amount : Z) data g :
  d ≠ "" →
  Forall (λ q, Question.difficulty q = d
               ∧ ∃ q0, q0 ∈ data ∧ Question.same_content q q0)
         (localQuestions (Some d) amount data g).1.
Proof.
  intros Hd. eapply Forall_impl; [apply localQuestions_from_pool|].
  intros q (q1 & Hq1 & Hsame). cbn.
  apply filteredQuestions_elem in Hq1 as (q0 & Hq0 & Hkeep & Hsame0).
  assert (Question.same_content q q0) as Hs.
  { unfold Question.same_content in *. congruence. }
  split; [|by exists q0].
  rewrite (same_content_difficulty _ _ Hs).
  unfold dropped in Hkeep.
  rewrite bool_decide_eq_false_2 in Hkeep by done. cbn in Hkeep.
  apply negb_false_iff, bool_decide_eq_true in Hkeep. done.
Qed.

Lemma localQuestions_respects_difficulty_witness :
  Forall (λ q, Question.difficulty q = "easy")
         (localQuestions (Some "easy") 3 LocalSession.data
                         (Random (λ n, n) 0)).1.
Proof.
  eapply Forall_impl.
  - apply (localQuestions_respects_difficulty "easy" 3 LocalSession.data
             (Random (λ n, n) 0)). discriminate.
  - intros q [Hq _]. exact Hq.
Defined.

Lemma localQuestions_slice (difficulty : option string) (amount : Z)
    data g :
  0 ≤ amount ≤ Z.of_nat (length (filteredQuestions difficulty data)) →
  (localQuestions difficulty amount data g).1
  = take (Z.to_nat amount)
         (shuffleQuestions (filteredQuestions difficulty data) g).1.
Proof.
  intros [Hlo Hhi]. unfold localQuestions.
  pose proof (shuffleQuestions_length (filteredQuestions difficulty data) g)
    as Hlen.
  destruct (shuffleQuestions (filteredQuestions difficulty data) g)
    as [shuffled g1]. cbn [fst] in Hlen.
  destruct (Z.leb_spec amount (Z.of_nat (length shuffled))) as [_|?]; [|lia].
  cbn [fst]. by rewrite slice0_take.
Qed.

(** X11.  When the filtered data has at least as many questions as are
    asked for, the local path returns exactly that many and takes each
    question of the data at most as often as the data holds it: nothing
    is repeated. *)
Theorem localQuestions_enough (difficulty : option string) (amount : Z)
    data g :
  0 ≤ amount ≤ Z.of_nat (length (filteredQuestions difficulty data)) →
  let questionData := (localQuestions difficulty amount data g).1 in
  Z.of_nat (length questionData) = amount
  ∧ questionData ⊆+ filteredQuestions difficulty data.
Proof.
  intros Hamount. cbv zeta. rewrite localQuestions_slice by done. split.
  - rewrite length_take, shuffleQuestions_length. lia.
  - rewrite <- (shuffleQuestions_Permutation
                  (filteredQuestions difficulty data) g) at 2.
    apply submseteq_take.
Qed.

Lemma localQuestions_enough_witness :
  length (localQuestions None 1 LocalSession.data (Random (λ n, n) 0)).1
  = 1%nat.
Proof.
  destruct (localQuestions_enough None 1 LocalSession.data
              (Random (λ n, n) 0)) as [Hlen _].
  - vm_compute. split; discriminate.
  - cbv zeta in Hlen. lia.
Defined.

(** X12.  In local mode, with at least one question in the filtered data
    and a positive count, a load always succeeds, and it starts the
    session afresh whatever state the hook was in: exactly the requested
    number of questions, position 0, no answer, no error, not completed,
    score 0, the full time on a stopped timer and no start or end time. *)
Theorem loadQuestions_local_restarts decode o data
    (responses : nat → Api.response) g st :
  useAPI o = false →
  filteredQuestions (difficulty o) data ≠ [] →
  1 ≤ amount o →
  let questionData := (localQuestions (difficulty o) (amount o) data g).1 in
  (loadQuestions decode o data responses g st).1
  = State questionData 0 ∅ false None false 0 (timeLimit o) false None None
  ∧ Z.of_nat (length questionData) = amount o.
Proof.
  intros Hlocal Hne Hpos. cbv zeta.
  assert (Z.of_nat (length (localQuestions (difficulty o) (amount o) data g).1)
          = amount o) as Hlen.
  { destruct (Z.le_gt_cases (amount o)
                (Z.of_nat (length (filteredQuestions (difficulty o) data))))
      as [Hle|Hgt].
    - rewrite localQuestions_slice by lia.
      rewrite length_take, shuffleQuestions_length. lia.
    - unfold localQuestions.
      set (filtered := filteredQuestions (difficulty o) data) in *.
      pose proof (shuffleQuestions_Permutation filtered g) as Hperm.
      destruct (shuffleQuestions filtered g) as [shuffled g1].
      cbn [fst] in Hperm.
      assert (length shuffled = length filtered) as Hl by by rewrite Hperm.
      assert (0 < length filtered)%nat as Hlpos.
      { destruct filtered; [done | cbn; lia]. }
      destruct (Z.leb_spec (amount o) (Z.of_nat (length shuffled))); [lia|].
      destruct (Nat.ltb_spec 0 (length shuffled)); [|lia].
      destruct (refill_spec (Z.to_nat (amount o)) filtered (amount o) []
                            shuffled g1)
        as (added & Hrun & Hcount & _); [done | by rewrite Hperm |
                                         cbn; lia | cbn; lia |].
      by rewrite Hrun. }
  split; [|done]. unfold loadQuestions. rewrite Hlocal.
  destruct (localQuestions (difficulty o) (amount o) data g) as [qs g1].
  cbn [fst] in *.
  destruct (Nat.eqb_spec (length qs) 0) as [Hz|_]; [lia|]. done.
Qed.

Lemma loadQuestions_local_restarts_witness :
  let st := (finishQuiz 60000 60000 LocalSession.answered).2 in
  let st' :=
    (loadQuestions (λ s, s) LocalSession.options LocalSession.data
                   (λ _, Api.Status 500) (Random (λ n, n) 0) st).1 in
  quizCompleted st = true
  ∧ quizCompleted st' = false
  ∧ length (questions st') = 2%nat
  ∧ selectedAnswers st' = ∅.
Proof.
  cbv zeta.
  destruct (loadQuestions_local_restarts (λ s, s) LocalSession.options
              LocalSession.data (λ _, Api.Status 500) (Random (λ n, n) 0)
              (finishQuiz 60000 60000 LocalSession.answered).2)
    as [Hst Hlen]; [reflexivity | discriminate | vm_compute; discriminate |].
  rewrite Hst. cbn [quizCompleted questions selectedAnswers].
  split_and!; [reflexivity | reflexivity | | reflexivity].
  cbv zeta in Hlen. apply Nat2Z.inj. rewrite Hlen. reflexivity.
Defined.

(** X13.  In local mode, when no question of the bundled data passes the
    difficulty filter, the load ends with the error [No questions found]
    and otherwise leaves the session as it was: the questions, answers,
    position and completion of the previous session stay in place. *)
Theorem loadQuestions_local_empty decode o data
    (responses : nat → Api.response) g st :
  useAPI o = false →
  filteredQuestions (difficulty o) data = [] →
  (loadQuestions decode o data responses g st).1
  = State (questions st) (currentQuestionIndex st) (selectedAnswers st)
          false (Some "No questions found") (quizCompleted st) (score st)
          (timeRemaining st) (timerActive st) (startTime st) (endTime st).
Proof.
  intros Hlocal Hempty. unfold loadQuestions, localQuestions.
  rewrite Hlocal, Hempty. cbn.
  assert (JS.slice0 (A:=question) [] (amount o) = []) as ->.
  { unfold JS.slice0. by destruct (_ <? _); rewrite take_nil. }
  destruct (amount o <=? Z.of_nat 0); cbn; unfold failed; by rewrite Hlocal.
Qed.

Lemma loadQuestions_local_empty_witness :
  let o := Options false 2 None (Some "hard") 30 in
  let st' :=
    (loadQuestions (λ s, s) o LocalSession.data (λ _, Api.Status 500)
                   (Random (λ n, n) 0) LocalSession.answered).1 in
  error st' = Some "No questions found"
  ∧ questions st' = LocalSession.data.
Proof.
  cbv zeta.
  rewrite (loadQuestions_local_empty (λ s, s)
             (Options false 2 None (Some "hard") 30) LocalSession.data
             (λ _, Api.Status 500) (Random (λ n, n) 0) LocalSession.answered);
    [split; reflexivity | reflexivity | reflexivity].
Defined.

End LocalLoad.

(** ** Fetching from the provider *)

Section RemoteFetch.

Implicit Types (decode : string → string) (g : random)
  (results : list Api.api_question).

Lemma formattedQuestions_spec decode index results g :
  let qs := (Api.formattedQuestions decode index results g).1 in
  Question.id <$> qs
  = (λ i, Z.of_nat i + 1) <$> seq index (length results)
  ∧ Forall2 (formatted_from decode) results qs.
Proof.
  revert index g. induction results as [|r results IH]; intros index g.
  - split; [done | constructor].
  - cbn [Api.formattedQuestions].
    pose proof (shuffleArray_Permutation
                  (map decode (Api.incorrect_answers r)
                     ++ [decode (Api.correct_answer r)]) g) as Hopts.
    destruct (shuffleArray _ g) as [opts g1]. cbn [fst] in Hopts.
    destruct (IH (S index) g1) as [Hids Hall].
    destruct (Api.formattedQuestions decode (S index) results g1) as [qs g2].
    cbn [fst] in *. split.
    + cbn [fmap list_fmap length seq]. f_equal. exact Hids.
    + constructor; [|exact Hall]. by repeat split.
Qed.

(** X14.  For a success response the fetch makes one question of each
    entry of the provider, in the order of the entries ([formatted]): the
    question of entry number [i] has the id [i] (counted from 1) and
    carries the decoded text of that entry, its category and difficulty,
    its decoded incorrect and correct answers in some order as options,
    and its correct answer.  What the fetch returns is [formatted] in a
    shuffled order; so the ids are the numbers from 1 to the number of
    entries, each once. *)
Theorem fetchQuestionsFromAPI_success decode results g :
  ∃ qs g' formatted,
    Api.fetchQuestionsFromAPI decode (Api.Body 0 results) g = (Return qs, g')
    ∧ qs ≡ₚ formatted
    ∧ Forall2 (formatted_from decode) results formatted
    ∧ Question.id <$> formatted = Z.of_nat <$> seq 1 (length results)
    ∧ length qs = length results
    ∧ Question.id <$> qs ≡ₚ Z.of_nat <$> seq 1 (length results)
    ∧ NoDup (Question.id <$> qs)
    ∧ Forall (λ q, ∃ r, r ∈ results ∧ formatted_from decode r q) qs.
Proof.
  unfold Api.fetchQuestionsFromAPI. cbn [Api.code_error Z.eqb].
  destruct (formattedQuestions_spec decode 0 results g) as [Hids Hall].
  destruct (Api.formattedQuestions decode 0 results g) as [fq g1].
  cbn [fst] in Hids, Hall.
  pose proof (shuffleArray_Permutation fq g1) as Hperm.
  destruct (shuffleArray fq g1) as [qs g2]. cbn [fst] in Hperm.
  assert (Question.id <$> fq = Z.of_nat <$> seq 1 (length results)) as Hids'.
  { rewrite Hids, <- fmap_S_seq, <- list_fmap_compose.
    apply list_fmap_ext. intros _ i _. cbn. lia. }
  exists qs, g2, fq. split_and!.
  - done.
  - done.
  - done.
  - done.
  - rewrite Hperm. symmetry. by eapply Forall2_length.
  - by rewrite Hperm, Hids'.
  - rewrite Hperm, Hids'. apply NoDup_fmap_2; [apply _ | apply NoDup_seq].
  - rewrite Hperm. apply Forall_forall. intros q Hq.
    apply list_elem_of_lookup in Hq as [i Hi].
    destruct (Forall2_lookup_r _ _ _ _ _ Hall Hi) as (r & Hr & Hrq).
    exists r. split; [by eapply list_elem_of_lookup_2 | done].
Qed.

Lemma fetchQuestionsFromAPI_no_undefined decode (r : Api.response) g g' :
  Api.fetchQuestionsFromAPI decode r g ≠ (ThrowUndefined, g').
Proof.
  unfold Api.fetchQuestionsFromAPI.
  destruct r as [m|status|code results]; [done | done |].
  destruct (Api.code_error code); [done|].
  destruct (Api.formattedQuestions decode 0 results g) as [fq g1].
  by destruct (shuffleArray fq g1).
Qed.

(** X15.  The fetch returns questions for no other response than a body
    with [response_code] 0.  On every other response it throws an [Error]
    (never [undefined]) and has drawn no random number. *)
Theorem fetchQuestionsFromAPI_outcomes decode (r : Api.response) g :
  match Api.fetchQuestionsFromAPI decode r g with
  | (Return _, _) => ∃ results, r = Api.Body 0 results
  | (Throw _, g') => g' = g ∧ ∀ results, r ≠ Api.Body 0 results
  | (ThrowUndefined, _) => False
  end.
Proof.
  unfold Api.fetchQuestionsFromAPI.
  destruct r as [m|status|code results]; [done | done |].
  destruct (Z.eq_dec code 0) as [->|Hne].
  - cbn. destruct (Api.formattedQuestions decode 0 results g) as [fq g1].
    destruct (shuffleArray fq g1). by eexists.
  - assert (∃ m, Api.code_error code = Some m) as [m ->].
    { unfold Api.code_error.
      repeat (match goal with
              | |- context [?a =? ?b] => destruct (Z.eqb_spec a b)
              end; [by (lia || eexists)|]).
      by eexists. }
    split; [done|]. intros results' [= ? _]. done.
Qed.

End RemoteFetch.

(** ** The retry loop, from the outside *)

Section RetryBounds.

Import ApiTools.

Variable decode : string → string.
Variable responses : nat → Api.response.
Variable g : random.

Lemma retry_loop_ends (maxRetries remaining attempt : nat) lastError :
  (1 ≤ remaining)%nat →
  (remaining + attempt = maxRetries + 1)%nat →
  ∃ (k : nat) c g',
    (1 ≤ k ≤ remaining)%nat
    ∧ (∀ i, (attempt ≤ i < attempt + k - 1)%nat →
            rate_limited_at decode responses g i)
    ∧ Api.fetchQuestionsFromAPI decode (responses (attempt + k - 1)%nat) g
      = (c, g')
    ∧ ends_run c (k = remaining)
    ∧ Api.retry_loop decode responses maxRetries remaining attempt lastError g
      = (retry_log k attempt, c, g').
Proof.
  revert attempt lastError.
  induction remaining as [|remaining IH]; intros attempt lastError Hr Hsum;
    [lia|].
  destruct (Api.fetchQuestionsFromAPI decode (responses attempt) g)
    as [c g'] eqn:Hthis.
  assert ((attempt + 1 - 1)%nat = attempt) as Hsame by lia.
  assert (ends_run c (1%nat = S remaining)
          ∨ ∃ message, c = Throw message ∧ g' = g
                       ∧ Api.is_rate_limit message = true
                       ∧ (1 ≤ remaining)%nat) as [Hends|Hmore].
  { destruct c as [qs|message|]; [by left | | by left].
    destruct (Api.is_rate_limit message) eqn:Hrate; [|by left; left].
    destruct (Nat.eq_dec remaining 0%nat) as [->|Hne]; [by left; right|].
    right. exists message. split_and!; [done | | done | lia].
    exact (fetchQuestionsFromAPI_Throw decode g _ _ _ Hthis). }
  - exists 1%nat, c, g'.
    refine (conj _ (conj _ (conj _ (conj Hends _))));
      [lia | intros i Hi; lia | by rewrite Hsame |].
    apply retry_loop_run; [lia | done | intros i Hi; lia | | done].
    by rewrite Hsame.
  - destruct Hmore as (message & -> & -> & Hrate & Hrem).
    destruct (IH (S attempt) (Some message)) as (k & c & g' & Hk & Hfail
                                                 & Hlast & Hends & _);
      [done | lia |].
    exists (S k), c, g'.
    assert (∀ i, (attempt ≤ i < attempt + S k - 1)%nat →
                 rate_limited_at decode responses g i) as Hfail'.
    { intros i Hi. destruct (decide (i = attempt)) as [->|Hne].
      - by exists message.
      - apply Hfail. lia. }
    assert (Api.fetchQuestionsFromAPI decode
              (responses (attempt + S k - 1)%nat) g = (c, g')) as Hlast'.
    { rewrite <- Hlast. do 3 f_equal. lia. }
    assert (ends_run c (S k = S remaining)) as Hends'.
    { destruct c; cbn in *; [done | | done].
      destruct Hends as [?|?]; [by left | right; lia]. }
    refine (conj _ (conj Hfail' (conj Hlast' (conj Hends' _)))); [lia|].
    apply retry_loop_run; [lia | done | done | done | done].
Qed.

Lemma retry_log_attempts (k attempt : nat) :
  attempts_made (retry_log k attempt) = k.
Proof.
  unfold attempts_made. revert attempt.
  induction k as [|k IH]; intros attempt; [done|].
  cbn [retry_log]. rewrite !filter_app, !length_app, IH.
  destruct (1 <? attempt)%nat, (0 <? k)%nat; cbn;
    repeat case_decide; try congruence; cbn; lia.
Qed.

(** X16.  With at least one attempt allowed, [fetchQuestionsWithRetry]
    always makes between 1 and [maxRetries] attempts and never throws
    [undefined].  There is an attempt [k] before which every attempt
    failed with a rate-limit error and which ended the run, and the call
    ends as that attempt ended. *)
Theorem fetchQuestionsWithRetry_ends (maxRetries : nat) :
  (1 ≤ maxRetries)%nat →
  ∃ (k : nat) c g',
    (1 ≤ k ≤ maxRetries)%nat
    ∧ (∀ i, (1 ≤ i < k)%nat → rate_limited_at decode responses g i)
    ∧ Api.fetchQuestionsFromAPI decode (responses k) g = (c, g')
    ∧ c ≠ ThrowUndefined
    ∧ Api.fetchQuestionsWithRetry decode responses maxRetries g
      = (retry_log k 1, c, g')
    ∧ attempts_made (retry_log k 1) = k.
Proof.
  intros Hmax. unfold Api.fetchQuestionsWithRetry.
  destruct (retry_loop_ends maxRetries maxRetries 1 None)
    as (k & c & g' & Hk & Hfail & Hlast & Hends & Hrun); [done | lia |].
  replace (1 + k - 1)%nat with k in Hlast by lia.
  exists k, c, g'.
  refine (conj _ (conj _ (conj Hlast (conj _ (conj Hrun _))))).
  - lia.
  - intros i Hi. apply Hfail. lia.
  - intros ->. by apply fetchQuestionsFromAPI_no_undefined in Hlast.
  - apply retry_log_attempts.
Qed.

(** X17.  As the hook calls it (two attempts allowed), the retry loop
    makes at most two requests, spends at most 16 seconds in its own
    delays, and ends with questions or with an [Error]. *)
Theorem fetchQuestionsWithRetry_default_cost :
  let run := Api.fetchQuestionsWithRetry decode responses 2 g in
  (1 ≤ attempts_made run.1.1 ≤ 2)%nat
  ∧ 0 ≤ total_delay run.1.1 ≤ 16000
  ∧ run.1.2 ≠ ThrowUndefined.
Proof.
  cbv zeta.
  destruct (retry_loop_ends 2 2 1 None)
    as (k & c & g' & Hk & _ & Hlast & _ & Hrun); [lia | lia |].
  unfold Api.fetchQuestionsWithRetry. rewrite Hrun. cbn [fst snd].
  refine (conj _ (conj _ _)).
  - rewrite retry_log_attempts. lia.
  - assert (k = 1 ∨ k = 2)%nat as [-> | ->] by lia; cbn; lia.
  - intros ->. by apply fetchQuestionsFromAPI_no_undefined in Hlast.
Qed.

End RetryBounds.

Lemma fetchQuestionsWithRetry_ends_witness :
  ∃ k : nat,
    (1 ≤ k ≤ 3)%nat
    ∧ ApiTools.attempts_made
        (Api.fetchQuestionsWithRetry (λ s, s)
           (RateLimitedProvider.responses 2) 3 (Random (λ _, 0%nat) 0)).1.1
      = k.
Proof.
  destruct (fetchQuestionsWithRetry_ends (λ s, s)
              (RateLimitedProvider.responses 2) (Random (λ _, 0%nat) 0) 3)
    as (k & c & g' & Hk & _ & _ & _ & Hrun & Hn); [lia|].
  exists k. split; [exact Hk|]. rewrite Hrun. exact Hn.
Defined.

(** ** More on the rate limiter *)

Section RateLimiterMore.

Import Api ApiTools.

Implicit Types (n : network) (schedule : list step).

(** X18.  As long as no call of [rateLimitedFetch] is made while another
    one is still waiting, every request leaves at least 5000 ms after the
    request before it, whatever the times of the calls. *)
Theorem rateLimitedFetch_sequential_spacing schedule (now : Z) :
  one_at_a_time schedule (Network now 0 [] []) →
  spaced MIN_REQUEST_INTERVAL (sent (run schedule (Network now 0 [] []))).
Proof. apply run_one_at_a_time_spaced. Qed.

Lemma rateLimitedFetch_sequential_spacing_witness :
  sent (run SequentialCalls.schedule (Network 1000000 0 [] []))
  = [1000000; 1005000; 1010000]
  ∧ spaced MIN_REQUEST_INTERVAL
           (sent (run SequentialCalls.schedule (Network 1000000 0 [] []))).
Proof.
  split; [reflexivity|].
  apply (rateLimitedFetch_sequential_spacing SequentialCalls.schedule 1000000).
  vm_compute. repeat split.
Defined.

Lemma earliest_elem (timers : list Z) (due : Z) :
  earliest timers = Some due → due ∈ timers.
Proof.
  revert due. induction timers as [|t rest IH]; intros due; [done|].
  cbn [earliest]. destruct (earliest rest) as [u|].
  - destruct (t <=? u); intros [= <-];
      [apply list_elem_of_here | apply list_elem_of_further; by apply IH].
  - intros [= <-]. apply list_elem_of_here.
Qed.

Lemma cancel_subseteq (timers : list Z) (due : Z) :
  cancel due timers ⊆ timers.
Proof.
  induction timers as [|t rest IH]; [done|].
  cbn [cancel]. destruct (t =? due); intros x Hx.
  - by apply list_elem_of_further.
  - apply elem_of_cons in Hx as [->|Hx];
      [apply list_elem_of_here | apply list_elem_of_further; by apply IH].
Qed.

Lemma cancel_elem (timers : list Z) (due : Z) :
  due ∈ timers →
  S (length (cancel due timers)) = length timers
  ∧ cancel due timers ⊆ timers.
Proof.
  intros Hin. split; [|apply cancel_subseteq].
  induction timers as [|t rest IH]; [by apply elem_of_nil in Hin|].
  cbn [cancel]. destruct (Z.eqb_spec t due) as [->|Hne]; [done|].
  apply elem_of_cons in Hin as [->|Hin]; [done|].
  cbn. rewrite IH; done.
Qed.

Lemma wake_counts (pending : nat) (target : Z) n :
  (length (sent (wake pending target n))
   + length (sleeping (wake pending target n))
   = length (sent n) + length (sleeping n))%nat.
Proof.
  revert n. induction pending as [|pending IH]; intros n; [done|].
  cbn [wake]. destruct (earliest (sleeping n)) as [due|] eqn:He; [|done].
  destruct (due <=? target); [|done].
  rewrite IH. cbn. rewrite length_app. cbn.
  apply earliest_elem, cancel_elem in He as [Hlen _]. lia.
Qed.

(** X19.  The limiter drops no call and sends none twice: at any moment
    the requests sent so far and the calls that are still waiting are,
    together, as many as the calls that were made. *)
Theorem rateLimitedFetch_loses_no_call schedule n :
  (length (sent (run schedule n)) + length (sleeping (run schedule n))
   = length (sent n) + length (sleeping n) + invocations schedule)%nat.
Proof.
  revert n. induction schedule as [|e schedule IH]; intros n.
  - cbn. unfold invocations. cbn. lia.
  - change (run (e :: schedule) n) with (run schedule (run_step e n)).
    rewrite IH. unfold invocations. rewrite filter_cons.
    destruct e as [|ms]; cbn [run_step is_invoke].
    + rewrite decide_True by done. cbn [length].
      unfold rateLimitedFetch, send.
      destruct (_ <? _); cbn; rewrite length_app; cbn; lia.
    + rewrite decide_False by done. unfold elapse. cbn.
      pose proof (wake_counts (length (sleeping n))
                    (clock n + Z.of_N ms) n). lia.
Qed.

Lemma wake_drains (pending : nat) (target : Z) n :
  (length (sleeping n) ≤ pending)%nat →
  Forall (λ t, t ≤ target) (sleeping n) →
  sleeping (wake pending target n) = [].
Proof.
  revert n. induction pending as [|pending IH]; intros n Hlen Hdue.
  - cbn [wake]. destruct (sleeping n); [done | cbn in Hlen; lia].
  - cbn [wake]. destruct (earliest (sleeping n)) as [due|] eqn:He.
    + pose proof (earliest_elem _ _ He) as Hin.
      destruct (cancel_elem _ _ Hin) as [Hl Hsub].
      rewrite Forall_forall in Hdue.
      destruct (Z.leb_spec due target) as [_|Hlate];
        [|specialize (Hdue _ Hin); cbn in Hdue; lia].
      apply IH; cbn; [lia|].
      apply Forall_forall. intros t Ht. apply Hdue. by apply Hsub.
    + destruct (sleeping n) as [|t rest]; [done|].
      cbn in He. by destruct (earliest rest).
Qed.

(** X20.  A call that has to wait is not given up: once enough time has
    passed for every waiting call to be due, none is waiting any more and
    each of them has sent its request. *)
Theorem rateLimitedFetch_waiting_calls_send (ms : N) n :
  Forall (λ t, t ≤ clock n + Z.of_N ms) (sleeping n) →
  sleeping (elapse ms n) = []
  ∧ length (sent (elapse ms n))
    = (length (sent n) + length (sleeping n))%nat.
Proof.
  intros Hdue. unfold elapse. cbn.
  pose proof (wake_counts (length (sleeping n)) (clock n + Z.of_N ms) n) as Hc.
  rewrite (wake_drains _ _ n) in * by done. cbn in Hc. split; [done | lia].
Qed.

Lemma rateLimitedFetch_waiting_calls_send_witness :
  let waiting :=
    run [Invoke; Elapse 1000; Invoke; Elapse 1000; Invoke]
        (Network 1000000 0 [] []) in
  length (sleeping waiting) = 2%nat
  ∧ sleeping (elapse 3000 waiting) = []
  ∧ length (sent (elapse 3000 waiting)) = 3%nat.
Proof.
  intros waiting. split; [reflexivity|].
  destruct (rateLimitedFetch_waiting_calls_send 3000 waiting) as [Hs Hl].
  - vm_compute. repeat constructor; discriminate.
  - split; [exact Hs | rewrite Hl; reflexivity].
Defined.

(** X21.  The two queries agree with the limiter.  [rateLimitedFetch]
    sends at once exactly when [isRateLimited] is false, and otherwise
    waits for [getTimeUntilNextRequest] milliseconds; that time is never
    negative, it is 0 exactly when [isRateLimited] is false, and after it
    has passed [isRateLimited] is false. *)
Theorem rate_limit_queries n :
  rateLimitedFetch n
  = (if isRateLimited n
     then Network (clock n) (lastRequestTime n)
                  (sleeping n ++ [clock n + getTimeUntilNextRequest n])
                  (sent n)
     else send n)
  ∧ 0 ≤ getTimeUntilNextRequest n
  ∧ (getTimeUntilNextRequest n = 0 ↔ isRateLimited n = false)
  ∧ isRateLimited
      (Network (clock n + getTimeUntilNextRequest n) (lastRequestTime n)
               (sleeping n) (sent n)) = false.
Proof.
  unfold rateLimitedFetch, isRateLimited, getTimeUntilNextRequest,
    MIN_REQUEST_INTERVAL. cbn.
  destruct (Z.ltb_spec (clock n - lastRequestTime n) 5000) as [Hsoon|Hlate].
  - split_and!; [do 3 f_equal; lia | lia | split; [lia|done] |].
    apply Z.ltb_ge. lia.
  - split_and!; [done | lia | split; [done|lia] |].
    apply Z.ltb_ge. lia.
Qed.

End RateLimiterMore.

(** ** [throttle] and [debounce] *)

Section ThrottleDebounce.

Import ApiTools.

Context {A : Type}.

Implicit Types (l : list (event A)) (args : A).

Lemma throttle_step (limit : Z) (e : event A) (s : throttled A) :
  0 ≤ limit →
  Api.spaced limit (t_ran s).*1 →
  Forall (λ t, t + limit ≤ gate s) (t_ran s).*1 →
  (inThrottle s = false → release s = None) →
  let s' := match e with
            | Call args => throttle_call limit args s
            | Wait ms => throttle_elapse ms s
            end in
  Api.spaced limit (t_ran s').*1
  ∧ Forall (λ t, t + limit ≤ gate s') (t_ran s').*1
  ∧ (inThrottle s' = false → release s' = None)
  ∧ ∃ ran, t_ran s' = t_ran s ++ ran
           ∧ ran.*2 ⊆ calls [e] ∧ (length ran ≤ length (calls [e]))%nat.
Proof.
  intros Hlimit Hs Hg Hr. destruct e as [args|ms]; cbv zeta.
  - unfold throttle_call. destruct (inThrottle s) eqn:Hin; cbn [negb].
    + split_and!; [done | done | by rewrite Hin |]. exists [].
      rewrite app_nil_r.
      split_and!; [done | apply list_subseteq_nil | cbn; lia].
    + specialize (Hr eq_refl). unfold gate in Hg. rewrite Hr in Hg.
      cbn. rewrite fmap_app. cbn. split_and!.
      * apply spaced_snoc; [done|]. eapply Forall_impl; [exact Hg|].
        intros t Ht. cbn in Ht. lia.
      * unfold gate. cbn. apply Forall_app. split.
        -- eapply Forall_impl; [exact Hg|]. intros t Ht. cbn in Ht. lia.
        -- repeat constructor. lia.
      * done.
      * exists [(t_clock s, args)]. split_and!; [done | done | cbn; lia].
  - unfold throttle_elapse.
    assert (∃ ran, t_ran s = t_ran s ++ ran
                   ∧ ran.*2 ⊆ calls [Wait (A:=A) ms]
                   ∧ (length ran ≤ length (calls [Wait (A:=A) ms]))%nat)
      as Hran.
    { exists []. rewrite app_nil_r.
      split_and!; [done | apply list_subseteq_nil | cbn; lia]. }
    unfold gate in *. destruct (release s) as [due|] eqn:Hrel.
    + destruct (Z.leb_spec due (t_clock s + Z.of_N ms)); cbn.
      * split_and!; [done | | done | done].
        eapply Forall_impl; [exact Hg|]. intros t Ht. cbn in Ht. lia.
      * split_and!; [done | done | | done].
        intros Hin. specialize (Hr Hin). congruence.
    + cbn. split_and!; [done | | done | done].
      eapply Forall_impl; [exact Hg|]. intros t Ht. cbn in Ht. lia.
Qed.

(** X22.  A throttled function, from its creation on and for every
    sequence of calls and pauses, runs [func] at times that are at least
    [limit] milliseconds apart; it runs it only with arguments it was
    called with, and not more often than it was called. *)
Theorem throttle_spacing (limit : Z) l (now : Z) :
  0 ≤ limit →
  let s := throttle_run limit l (Throttled now false None []) in
  Api.spaced limit (t_ran s).*1
  ∧ (t_ran s).*2 ⊆ calls l
  ∧ (length (t_ran s) ≤ length (calls l))%nat.
Proof.
  intros Hlimit. cbv zeta.
  assert (∀ s : throttled A,
            Api.spaced limit (t_ran s).*1 →
            Forall (λ t, t + limit ≤ gate s) (t_ran s).*1 →
            (inThrottle s = false → release s = None) →
            Api.spaced limit (t_ran (throttle_run limit l s)).*1
            ∧ ∃ ran, t_ran (throttle_run limit l s) = t_ran s ++ ran
                     ∧ ran.*2 ⊆ calls l
                     ∧ (length ran ≤ length (calls l))%nat) as Hall.
  { induction l as [|e l IH]; intros s Hs Hg Hr.
    - split; [done|]. exists []. rewrite app_nil_r.
      split_and!; [done | apply list_subseteq_nil | cbn; lia].
    - destruct (throttle_step limit e s Hlimit Hs Hg Hr)
        as (Hs' & Hg' & Hr' & ran1 & Hran1 & Hsub1 & Hlen1).
      destruct (IH _ Hs' Hg' Hr') as (Hs'' & ran2 & Hran2 & Hsub2 & Hlen2).
      split; [exact Hs''|]. exists (ran1 ++ ran2).
      change (throttle_run limit (e :: l) s)
        with (throttle_run limit l
                (match e with
                 | Call args => throttle_call limit args s
                 | Wait ms => throttle_elapse ms s
                 end)).
      rewrite Hran2, Hran1, <- app_assoc.
      assert (calls (e :: l) = calls [e] ++ calls l) as ->
        by by destruct e.
      rewrite fmap_app, !length_app. split_and!; [done | | lia].
      intros x Hx. apply elem_of_app in Hx as [Hx|Hx]; apply elem_of_app;
        [left; by apply Hsub1 | right; by apply Hsub2]. }
  destruct (Hall (Throttled now false None []))
    as (Hs & ran & Hran & Hsub & Hlen); [done | constructor | done |].
  cbn in Hran. split_and!; [exact Hs | by rewrite Hran | by rewrite Hran].
Qed.

Lemma debounce_run_cons (wait : Z) (e : event A) l (s : debounced A) :
  debounce_run wait (e :: l) s
  = debounce_run wait l
      (match e with
       | Call args => debounce_call wait args s
       | Wait ms => debounce_elapse ms s
       end).
Proof. reflexivity. Qed.

Lemma debounce_burst_from (wait : Z) (later : list (N * A)) (pause : N)
    (clock : Z) args (ran : list (Z * A)) :
  0 ≤ wait →
  Forall (λ p, Z.of_N p.1 < wait) later →
  wait ≤ Z.of_N pause →
  debounce_run wait (flat_map (λ p, [Wait p.1; Call p.2]) later ++ [Wait pause])
               (Debounced clock (Some (clock + wait, args)) ran)
  = Debounced (clock + pauses later + Z.of_N pause) None
              (ran ++ [(clock + pauses later + wait,
                        default args (last later.*2))]).
Proof.
  intros Hwait Hshort Hlong. revert clock args.
  induction Hshort as [|[p args'] later Hp _ IH]; intros clock args.
  - cbn. unfold debounce_elapse. cbn.
    destruct (Z.leb_spec (clock + wait) (clock + Z.of_N pause)); [|lia].
    rewrite Z.add_0_r, Z.max_r by lia. done.
  - cbn in Hp. cbn [flat_map app fst snd].
    rewrite !debounce_run_cons.
    unfold debounce_elapse. cbn [timeout d_clock d_ran].
    destruct (Z.leb_spec (clock + wait) (clock + Z.of_N p)); [lia|].
    unfold debounce_call. cbn [d_clock d_ran].
    rewrite IH. cbn [pauses foldr fst fmap list_fmap snd].
    assert (default args' (last later.*2)
            = default args (last (args' :: later.*2))) as ->.
    { rewrite last_cons. by destruct (last later.*2). }
    fold (pauses later).
    replace (clock + (Z.of_N p + pauses later))
      with (clock + Z.of_N p + pauses later) by lia.
    done.
Qed.

(** X23.  A debounced function runs [func] once for a burst of calls:
    when every call of the burst follows the one before it by less than
    [wait] milliseconds and [wait] milliseconds or more then pass without
    a call, [func] has run exactly once, [wait] milliseconds after the
    last call of the burst and with the arguments of that call. *)
Theorem debounce_burst (wait : Z) (first : A) (later : list (N * A))
    (pause : N) (now : Z) :
  0 ≤ wait →
  Forall (λ p, Z.of_N p.1 < wait) later →
  wait ≤ Z.of_N pause →
  let s := debounce_run wait (burst first later ++ [Wait pause])
                        (Debounced now None []) in
  d_ran s = [(now + pauses later + wait, default first (last later.*2))]
  ∧ timeout s = None.
Proof.
  intros Hwait Hshort Hlong. cbv zeta. unfold burst. cbn [app].
  rewrite debounce_run_cons.
  unfold debounce_call. cbn [d_clock d_ran].
  by rewrite debounce_burst_from.
Qed.

End ThrottleDebounce.

Lemma throttle_spacing_witness :
  let s :=
    ApiTools.throttle_run 1000
      [ApiTools.Call "a"; ApiTools.Wait 400; ApiTools.Call "b";
       ApiTools.Wait 600; ApiTools.Call "c"]
      (ApiTools.Throttled 0 false None []) in
  ApiTools.t_ran s = [(0, "a"); (1000, "c")]
  ∧ Api.spaced 1000 (ApiTools.t_ran s).*1.
Proof.
  intros s. split; [reflexivity|].
  apply (throttle_spacing 1000
           [ApiTools.Call "a"; ApiTools.Wait 400; ApiTools.Call "b";
            ApiTools.Wait 600; ApiTools.Call "c"] 0).
  lia.
Defined.

Lemma debounce_burst_witness :
  ApiTools.d_ran
    (ApiTools.debounce_run 300
       (ApiTools.burst "a" [(100%N, "b"); (250%N, "c")] ++ [ApiTools.Wait 300])
       (ApiTools.Debounced 0 None []))
  = [(650, "c")].
Proof.
  destruct (debounce_burst 300 "a" [(100%N, "b"); (250%N, "c")] 300%N 0)
    as [Hran _]; [lia | repeat constructor | lia |].
  exact Hran.
Defined.

(** ** Results, averages and streaks over a history *)

Section Histories.

Import UseQuiz Storage History ResultsPage.

Implicit Types (history before run : list (string * Result.t)).
Implicit Types (scores prev : list Score.t).

Local Abbreviation passing := (Forall (λ r, passed r = true)).

(** X24.  On a session with at least one question [finishQuiz] returns a
    score between 0 and the number of questions, one outcome per question
    and an integer percentage between 0 and 100. *)
Theorem finishQuiz_result_bounds (st : state) (ended returned : Z) :
  questions st ≠ [] →
  let r := (finishQuiz ended returned st).1 in
  0 ≤ Result.score r ≤ Result.total r
  ∧ Result.total r = Z.of_nat (length (questions st))
  ∧ length (Result.results r) = length (questions st)
  ∧ ∃ p, Result.percentage r = JS.Int p ∧ 0 ≤ p ≤ 100.
Proof.
  intros Hne. cbv zeta. unfold finishQuiz.
  cbn [fst Result.score Result.total Result.results Result.percentage].
  set (results := map (outcome_of (selectedAnswers st)) (questions st)).
  assert (length results = length (questions st)) as Hlen
    by apply length_map.
  assert (0 < length (questions st))%nat as Hpos
    by (destruct (questions st); [done | cbn; lia]).
  assert (0 ≤ count_correct results ≤ Z.of_nat (length (questions st)))
    as Hcount.
  { unfold count_correct.
    pose proof (length_filter (λ r, Result.isCorrect r = true) results).
    lia. }
  split_and!; [lia | lia | done | done |].
  eexists. split; [by apply percent_positive|].
  set (n := count_correct results) in *.
  set (len := Z.of_nat (length (questions st))) in *.
  assert (0 < len) by lia. split.
  - apply Z.div_le_lower_bound; lia.
  - apply Z.lt_succ_r. apply Z.div_lt_upper_bound; lia.
Qed.

Lemma total_bounds (lo hi : Z) scores (sum : Z) :
  Forall (λ e, lo ≤ Score.percentage e ≤ hi) scores →
  sum + Z.of_nat (length scores) * lo
  ≤ foldl (λ sum score, sum + Score.percentage score) sum scores
  ≤ sum + Z.of_nat (length scores) * hi.
Proof.
  intros H. revert sum. induction H as [|e scores He _ IH]; intros sum.
  - cbn. lia.
  - cbn [foldl length]. specialize (IH (sum + Score.percentage e)). lia.
Qed.

(** X25.  [getAverageScore] of a non-empty list is an integer that lies
    between any two bounds of the stored percentages: it is the mean of
    the percentages rounded to the nearest integer, a tie going up. *)
Theorem getAverageScore_bounds (lo hi : Z) scores :
  scores ≠ [] →
  Forall (λ e, lo ≤ Score.percentage e ≤ hi) scores →
  let total := foldl (λ sum score, sum + Score.percentage score) 0 scores in
  let n := Z.of_nat (length scores) in
  getAverageScore scores = JS.Int ((2 * total + n) / (2 * n))
  ∧ lo ≤ (2 * total + n) / (2 * n) ≤ hi.
Proof.
  intros Hne Hall total n.
  assert (0 < n) as Hn by (subst n; destruct scores; [done | cbn; lia]).
  split.
  - unfold getAverageScore.
    destruct (Nat.eqb_spec (length scores) 0) as [E|_]; [lia|].
    fold total. fold n. unfold JS.div, JS.Int.
    assert (¬ inject_Z n == 0)%Q as Hnz.
    { intros H. apply (proj1 (inject_Z_injective _ 0)) in H. lia. }
    destruct (Qeq_bool (inject_Z n) 0) eqn:E.
    { by apply Qeq_bool_iff in E. }
    unfold JS.Math_round, JS.Int. do 2 f_equal.
    rewrite Zdiv_Qdiv. apply Qfloor_comp.
    rewrite !Qred_correct, inject_Z_plus, !inject_Z_mult.
    field. exact Hnz.
  - pose proof (total_bounds lo hi scores 0 Hall) as Ht.
    fold total in Ht. fold n in Ht. split.
    + apply Z.div_le_lower_bound; lia.
    + apply Z.lt_succ_r. apply Z.div_lt_upper_bound; lia.
Qed.

Lemma gt_Int (a b : Z) : gt (JS.Int a) (JS.Int b) = bool_decide (b < a).
Proof.
  unfold gt, JS.Int. destruct (Qle_bool (inject_Z a) (inject_Z b)) eqn:E.
  - apply Qle_bool_iff in E. rewrite <- Zle_Qle in E.
    by rewrite bool_decide_eq_false_2 by lia.
  - rewrite bool_decide_eq_true_2; [done|].
    destruct (Z.le_gt_cases a b) as [H|H]; [|lia].
    rewrite Zle_Qle in H. apply Qle_bool_iff in H. congruence.
Qed.

(** X26.  Once [addScore] has recorded the score of a result, the results
    page does not announce a new high score for it, whatever was stored
    before: the list is not empty and its first entry is not below the
    result. *)
Theorem isNewHighScore_after_addScore (now : Z) (iso : string)
    (d : Score.t) prev (results : Result.t) :
  Result.percentage results = JS.Int (Score.percentage d) →
  isNewHighScore results (addScore now iso d prev) = false.
Proof.
  intros Hp. rewrite addScore_take.
  set (new := newScore now iso d).
  pose proof (sort_descending Score.percentage (prev ++ [new])) as Hdesc.
  pose proof (sort_Permutation Score.percentage (prev ++ [new])) as Hperm.
  fold Score.by_percentage in Hdesc, Hperm.
  change (λ a b : Score.t, Score.percentage b - Score.percentage a)
    with Score.by_percentage in *.
  destruct (JS.sort Score.by_percentage (prev ++ [new]))
    as [|top sorted] eqn:Hsorted.
  { apply Permutation_length in Hperm. rewrite length_app in Hperm.
    cbn in Hperm. lia. }
  unfold isNewHighScore. cbn [take length Nat.eqb orb lookup list_lookup].
  rewrite Hp, gt_Int. apply bool_decide_eq_false_2.
  apply descending_head in Hdesc. rewrite Forall_forall in Hdesc.
  assert (new ∈ top :: sorted) as Hin.
  { rewrite Hperm. apply elem_of_app. right. by apply list_elem_of_here. }
  specialize (Hdesc _ Hin). cbn in Hdesc. lia.
Qed.

Lemma updateAll_snoc history r (s : stats) :
  updateAll (history ++ [r]) s = updateStats r.1 r.2 (updateAll history s).
Proof. unfold updateAll. by rewrite foldl_app. Qed.

(** A run of passed quizzes at the end of a history is not longer than
    the one that starts after the last failed quiz. *)
Lemma trailing_run_longest before run (a run0 : list (string * Result.t)) :
  before ++ run = a ++ run0 →
  passing run0 →
  (∀ r, last before = Some r → passed r = false) →
  (length run0 ≤ length run)%nat.
Proof.
  intros Heq Hpass Hlast.
  destruct (decide (length run0 ≤ length run)%nat) as [|Hgt]; [done|].
  exfalso.
  assert (length before + length run = length a + length run0)%nat as Hlen
    by (rewrite <- !length_app; by rewrite Heq).
  destruct (last before) as [x|] eqn:Hx.
  - specialize (Hlast x eq_refl). rewrite last_lookup in Hx.
    assert ((a ++ run0) !! pred (length before) = Some x) as Hx'.
    { rewrite <- Heq. by apply lookup_app_l_Some. }
    rewrite lookup_app_r in Hx' by lia.
    rewrite Forall_lookup in Hpass. specialize (Hpass _ _ Hx').
    cbn in Hpass. congruence.
  - apply last_None in Hx. subst before. cbn in Hlen. lia.
Qed.

(** X27.  From zeroed statistics and after one [updateStats] per finished
    quiz, [totalQuizzes] is the number of quizzes, [currentStreak] is the
    number of quizzes passed (70 percent or more) since the last one that
    was not, and [bestStreak] is the length of the longest run of passed
    quizzes in the history. *)
Theorem updateStats_history history :
  let s := updateAll history zero_stats in
  totalQuizzes s = Z.of_nat (length history)
  ∧ (∃ before run,
       history = before ++ run ∧ passing run
       ∧ (∀ r, last before = Some r → passed r = false)
       ∧ currentStreak s = Z.of_nat (length run))
  ∧ (∀ a run b,
       history = a ++ run ++ b → passing run →
       Z.of_nat (length run) ≤ bestStreak s)
  ∧ (∃ a run b,
       history = a ++ run ++ b ∧ passing run
       ∧ bestStreak s = Z.of_nat (length run)).
Proof.
  cbv zeta. induction history as [|r history IH] using rev_ind.
  - cbn. split_and!.
    + done.
    + exists [], []. split_and!; [done | constructor | by intros r | done].
    + intros a run b H _. symmetry in H.
      apply app_eq_nil in H as [_ H]. apply app_eq_nil in H as [-> _]. done.
    + exists [], [], []. split_and!; [done | constructor | done].
  - destruct IH as (Hn & (before & run & Hhist & Hrun & Hlast & Hcur)
                    & Hmax & (a0 & run0 & b0 & Hh0 & Hp0 & Hb0)).
    rewrite updateAll_snoc.
    set (s := updateAll history zero_stats) in *.
    unfold updateStats. cbn [totalQuizzes currentStreak bestStreak].
    change (JS.ge (Result.percentage r.2) (JS.Int 70)) with (passed r).
    assert (∀ a run' b x,
              b ≠ [] → history ++ [x] = a ++ run' ++ b → passing run' →
              Z.of_nat (length run') ≤ bestStreak s) as Hinner.
    { intros a run' b x Hb Heq Hpass.
      destruct b as [|y b _] using rev_ind; [done|].
      rewrite !app_assoc in Heq. apply app_inj_tail in Heq as [Heq _].
      rewrite <- app_assoc in Heq. by eapply Hmax. }
    split_and!.
    + rewrite length_app. cbn. lia.
    + destruct (passed r) eqn:Hr.
      * exists before, (run ++ [r]). split_and!.
        -- by rewrite Hhist, app_assoc.
        -- apply Forall_app. split; [done|]. by repeat constructor.
        -- done.
        -- rewrite length_app. cbn. lia.
      * exists (history ++ [r]), []. split_and!.
        -- by rewrite app_nil_r.
        -- constructor.
        -- intros x Hx. rewrite last_snoc in Hx. congruence.
        -- done.
    + intros a run' b Heq Hpass.
      destruct (decide (b = [])) as [->|Hb]; [|etrans; [by eapply Hinner|lia]].
      rewrite app_nil_r in Heq. destruct (passed r) eqn:Hr.
      * assert (length run' ≤ length (run ++ [r]))%nat as Hle.
        { apply (trailing_run_longest before _ a); [|done|done].
          by rewrite <- Heq, Hhist, app_assoc. }
        rewrite length_app in Hle. cbn in Hle. lia.
      * destruct run' as [|y run' _] using rev_ind; [cbn; lia|].
        rewrite app_assoc in Heq. apply app_inj_tail in Heq as [_ <-].
        apply Forall_app in Hpass as [_ Hpass].
        apply Forall_inv in Hpass. congruence.
    + destruct (passed r) eqn:Hr.
      * destruct (Z.le_gt_cases (currentStreak s + 1) (bestStreak s)).
        -- exists a0, run0, (b0 ++ [r]). split_and!; [|done|lia].
           by rewrite Hh0, <- !app_assoc.
        -- exists before, (run ++ [r]), []. split_and!.
           ++ by rewrite app_nil_r, Hhist, app_assoc.
           ++ apply Forall_app. split; [done|]. by repeat constructor.
           ++ rewrite length_app. cbn. lia.
      * exists a0, run0, (b0 ++ [r]). split_and!; [|done|lia].
        by rewrite Hh0, <- !app_assoc.
Qed.

End Histories.

Lemma finishQuiz_result_bounds_witness :
  let r := (UseQuiz.finishQuiz 60000 60000 LocalSession.answered).1 in
  0 ≤ Result.score r ≤ Result.total r
  ∧ Result.total r = 2
  ∧ length (Result.results r) = 2%nat
  ∧ ∃ p, Result.percentage r = JS.Int p ∧ 0 ≤ p ≤ 100.
Proof.
  apply (finishQuiz_result_bounds LocalSession.answered 60000 60000).
  vm_compute. discriminate.
Defined.

Lemma getAverageScore_bounds_witness :
  History.getAverageScore
    [Score.Make 9 10 90 "easy" 60000 "Mixed" (Some 1) None;
     Score.Make 7 10 75 "easy" 60000 "Mixed" (Some 2) None]
  = JS.Int ((2 * 165 + 2) / (2 * 2))
  ∧ 75 ≤ (2 * 165 + 2) / (2 * 2) ≤ 90.
Proof.
  apply (getAverageScore_bounds 75 90
           [Score.Make 9 10 90 "easy" 60000 "Mixed" (Some 1) None;
            Score.Make 7 10 75 "easy" 60000 "Mixed" (Some 2) None]).
  - discriminate.
  - repeat constructor; cbn; lia.
Defined.

Lemma isNewHighScore_after_addScore_witness :
  ResultsPage.isNewHighScore
    (Result.Make 2 2 (JS.Int 100) [] 60000)
    (Storage.addScore 5 "t" (Score.Make 2 2 100 "easy" 60000 "Mixed" None None)
                      [])
  = false.
Proof.
  apply (isNewHighScore_after_addScore 5 "t"
           (Score.Make 2 2 100 "easy" 60000 "Mixed" None None) []
           (Result.Make 2 2 (JS.Int 100) [] 60000)).
  reflexivity.
Defined.
